(** * Verification of the URL indexing pipeline

    A shallow embedding of the two core modules of the repository:

    - [src/indexing.py]: the submission engine ([submit_urls],
      [_execute_batch_request]);
    - [src/csv_manager.py]: the state store ([read_csv], [write_csv],
      [update_url_status], [get_pending_urls], [add_urls_batch],
      [get_statistics]).

    Python values are modelled as the code has them: [str] as [string],
    [int] as [Z], [list] as [list], an insertion-ordered [dict] as an
    association list with in-place update, exceptions as an explicit
    result type, and observable effects (batch requests, notification
    callbacks, sleeps, file saves) as explicit traces or counters. *)

From Stdlib Require Import List String Ascii ZArith Bool Lia Arith.
From Stdlib Require Import DecimalString.
Import ListNotations.

Local Open Scope string_scope.
Local Open Scope Z_scope.

(** ** Python prelude *)

Module Py.

(** The exceptions the modelled code can raise. *)
Inductive exn : Type :=
| ValueError (msg : string).

(** Outcome of a call: a returned value or a raised exception. *)
Inductive result (A : Type) : Type :=
| Return (v : A)
| Raise (e : exn).
Arguments Return {A} v.
Arguments Raise {A} e.

(** An insertion-ordered [dict] with [str] keys: [d[k] = v] overwrites
    the value of an existing key in place and appends a new key at the
    end, as Python dictionaries do. *)
Definition dict (V : Type) : Type := list (string * V).

Fixpoint dict_set {V : Type} (k : string) (v : V) (d : dict V) : dict V :=
  match d with
  | [] => [(k, v)]
  | (k', v') :: d' =>
      if String.eqb k' k then (k, v) :: d'
      else (k', v') :: dict_set k v d'
  end.

Definition keys {V : Type} (d : dict V) : list string := map fst d.

Fixpoint dict_get {V : Type} (k : string) (d : dict V) : option V :=
  match d with
  | [] => None
  | (k', v') :: d' => if String.eqb k' k then Some v' else dict_get k d'
  end.

(** The dictionary with every value [v] replaced by [g v]. *)
Definition map_values {V W : Type} (g : V -> W) (d : dict V) : dict W :=
  map (fun kv => (fst kv, g (snd kv))) d.

(** Truthiness of a list ([if xs:]) and of a string ([if not s:]). *)
Definition truthy {A : Type} (l : list A) : bool :=
  match l with [] => false | _ :: _ => true end.

Definition str_truthy (s : string) : bool :=
  match s with EmptyString => false | String _ _ => true end.

(** [str(n)] for an [int]. *)
Definition str_of_int (n : Z) : string :=
  NilZero.string_of_int (Z.to_int n).

(** [xs[:stop]]: a negative [stop] counts from the end of the list. *)
Definition slice_to {A : Type} (xs : list A) (stop : Z) : list A :=
  if 0 <=? stop then firstn (Z.to_nat stop) xs
  else firstn (Z.to_nat (Z.of_nat (List.length xs) + stop)) xs.

(** [int(s)] for a [str] in base 10, on ASCII input: optional
    surrounding whitespace, an optional sign, then decimal digits in
    which single underscores may separate digits.  [None] stands for
    the [ValueError] Python raises on anything else. *)
Definition is_space (c : ascii) : bool :=
  let n := nat_of_ascii c in
  (Nat.eqb n 32 || (Nat.leb 9 n && Nat.leb n 13)
   || (Nat.leb 28 n && Nat.leb n 31))%bool.

Definition digit_of (c : ascii) : option Z :=
  let n := nat_of_ascii c in
  if (Nat.leb 48 n && Nat.leb n 57)%bool then Some (Z.of_nat (n - 48))
  else None.

Fixpoint lstrip (s : string) : string :=
  match s with
  | String c s' => if is_space c then lstrip s' else s
  | EmptyString => EmptyString
  end.

Fixpoint rstrip (s : string) : string :=
  match s with
  | EmptyString => EmptyString
  | String c s' =>
      match rstrip s' with
      | EmptyString => if is_space c then EmptyString else String c EmptyString
      | t => String c t
      end
  end.

(** Digits after the first one: [prev_digit] tells whether the previous
    character was a digit, so that an underscore is only accepted
    between two digits. *)
Fixpoint digits_from (acc : Z) (prev_digit : bool) (s : string) : option Z :=
  match s with
  | EmptyString => if prev_digit then Some acc else None
  | String c s' =>
      match digit_of c with
      | Some d => digits_from (10 * acc + d) true s'
      | None =>
          if (Ascii.eqb c "_" && prev_digit)%bool then digits_from acc false s'
          else None
      end
  end.

Definition unsigned_of (s : string) : option Z :=
  match s with
  | EmptyString => None
  | String c _ =>
      match digit_of c with
      | Some _ => digits_from 0 false s
      | None => None
      end
  end.

Definition int_of_str (s : string) : option Z :=
  match rstrip (lstrip s) with
  | String "-" t => option_map Z.opp (unsigned_of t)
  | String "+" t => unsigned_of t
  | t => unsigned_of t
  end.

(** [sub in s] for two [str]. *)
Fixpoint contains (sub s : string) : bool :=
  (String.prefix sub s ||
   match s with
   | EmptyString => false
   | String _ s' => contains sub s'
   end)%bool.

(** [s.split(sep)] for a non-empty [sep]: the pieces between the
    occurrences of [sep], found from left to right without overlap.
    [skip] counts the characters of a matched separator that are still
    to be passed over. *)
Fixpoint split_from (sep : string) (skip : nat) (s : string) : list string :=
  match s with
  | EmptyString => [EmptyString]
  | String c s' =>
      match skip with
      | S k => split_from sep k s'
      | O =>
          if String.prefix sep s
          then EmptyString :: split_from sep (String.length sep - 1) s'
          else
            match split_from sep 0 s' with
            | piece :: rest => String c piece :: rest
            | [] => [String c EmptyString]
            end
      end
  end.

Definition split (sep s : string) : list string := split_from sep 0 s.

(** [s.endswith(suffix)]. *)
Definition str_rev (s : string) : string :=
  String.string_of_list_ascii (List.rev (String.list_ascii_of_string s)).

Definition endswith (s suffix : string) : bool :=
  String.prefix (str_rev suffix) (str_rev s).

(** [os.path.join(a, b)] with the POSIX separator. *)
Definition path_join (a b : string) : string :=
  if String.prefix "/" b then b
  else if (negb (str_truthy a) || endswith a "/")%bool then (a ++ b)%string
  else (a ++ "/" ++ b)%string.

End Py.

(** ** The submission engine ([src/indexing.py]) *)

Module Indexing.
Import Py.
Local Open Scope list_scope.

Definition url : Type := string.

(** *** The external API client

    [HttpError] carries the HTTP status of the response
    ([exception.resp.status]), its body ([exception.content]) and its
    printed form ([str(exception)]).  Of the body only what
    [batch_callback] reads is kept: whether
    [json.loads(content.decode())] and the two [.get] calls go through,
    and the value found under [error.message] if any. *)
Inductive error_body : Type :=
| Unreadable                  (* the [try] block raises *)
| NoMessage                   (* parsed, no [error.message] entry *)
| Message (m : string).       (* parsed, [error.message] is [m] *)

Inductive exception : Type :=
| HttpError (status : Z) (content : error_body) (text : string)
| OtherError (text : string).

(** [str(exception)]. *)
Definition str_of_exception (e : exception) : string :=
  match e with
  | HttpError _ _ text => text
  | OtherError text => text
  end.

(** The service object is a parameter of [submit_urls].  Its batch
    endpoint answers every request of a batch exactly once, in the order
    the requests were added, with either a response ([None] for the
    exception) or an exception; the answer may depend on the round in
    which the request is made and on the URL.  A service is therefore a
    function from the round number and the URL to the exception handed
    to the batch callback.  A client that refuses a batch as a whole
    (an exception out of [batch.add] or [batch.execute()]) is not
    covered: [submit_urls] does not catch such an exception. *)
Definition service : Type := Z -> url -> option exception.

(** *** Observable effects of one [submit_urls] call, in program order *)
Inductive event : Type :=
| Batch (attempt : Z) (urls : list url)
    (* [_execute_batch_request(service, urls)] issued in round [attempt] *)
| Callback (u : url) (success : bool) (error : option string) (attempt : Z)
    (* [callback(url, success, error, attempt)] *)
| Sleep (seconds : Z).
    (* [time.sleep(retry_delay)] *)

(** *** [batch_callback] (the closure inside [_execute_batch_request]) *)

(** The status-code branch: the message is prefixed for 403, 429 and
    400, and passed through for any other status. *)
Definition with_status_prefix (status : Z) (error_message : string) : string :=
  if status =? 403 then ("권한 없음 (403): " ++ error_message)%string
  else if status =? 429 then ("할당량 초과 (429): " ++ error_message)%string
  else if status =? 400 then ("잘못된 요청 (400): " ++ error_message)%string
  else error_message.

(** The error string stored for a failed request: for an [HttpError]
    whose body is read, [error.message] (or [str(exception)] when there
    is none) with the status prefix; [str(exception)] when reading the
    body raises and for every other exception. *)
Definition error_message_of (e : exception) : string :=
  match e with
  | HttpError status content _ =>
      match content with
      | Unreadable => str_of_exception e
      | NoMessage => with_status_prefix status (str_of_exception e)
      | Message m => with_status_prefix status m
      end
  | OtherError _ => str_of_exception e
  end.

Definition batch_callback (results : dict (bool * option string))
    (request_id : url) (exception : option exception)
    : dict (bool * option string) :=
  match exception with
  | Some e => dict_set request_id (false, Some (error_message_of e)) results
  | None => dict_set request_id (true, None) results
  end.

(** *** [_execute_batch_request]: one batch round

    Every URL is added to the batch with itself as request id;
    [batch.execute()] then calls [batch_callback] once per request. *)
Definition _execute_batch_request (svc : service) (attempt : Z)
    (urls : list url) : dict (bool * option string) :=
  fold_left (fun results u => batch_callback results u (svc attempt u))
            urls [].

(** *** [submit_urls] *)

Definition final_results : Type := dict (bool * option string * Z).

Section Submit.
Variable svc : service.
Variable max_retry : Z.
(** [retry_delay] is a float in the source; it is only handed to
    [time.sleep], so it is kept as an opaque number of seconds. *)
Variable retry_delay : Z.
(** [callback] is optional: [true] when one was passed. *)
Variable callback : bool.

Definition notify (u : url) (success : bool) (error : option string)
    (attempt : Z) : list event :=
  if callback then [Callback u success error attempt] else [].

(** The [for url, (success, error) in batch_results.items()] loop of
    round [attempt]; returns the updated [final_results], the
    [next_retry_urls] and the callbacks made. *)
Fixpoint handle_results (attempt : Z)
    (items : dict (bool * option string)) (final : final_results)
    : final_results * list url * list event :=
  match items with
  | [] => (final, [], [])
  | (u, (success, error)) :: rest =>
      if success then
        let '(final', next, evs) :=
          handle_results attempt rest (dict_set u (true, None, attempt) final) in
        (final', next, notify u true None attempt ++ evs)
      else if attempt <? max_retry then
        let '(final', next, evs) := handle_results attempt rest final in
        (final', u :: next, evs)
      else
        let '(final', next, evs) :=
          handle_results attempt rest (dict_set u (false, error, attempt) final) in
        (final', next, notify u false error attempt ++ evs)
  end.

(** The [while urls_to_retry and attempt < max_retry] loop.  [fuel]
    bounds the number of iterations; [None] means the bound was hit
    before the loop condition became false. *)
Fixpoint while_loop (fuel : nat) (urls_to_retry : list url) (attempt : Z)
    (final : final_results) : option (final_results * list event) :=
  if (truthy urls_to_retry && (attempt <? max_retry))%bool then
    match fuel with
    | O => None
    | S fuel' =>
        let attempt := attempt + 1 in
        let batch_results := _execute_batch_request svc attempt urls_to_retry in
        let '(final, next_retry_urls, evs) :=
          handle_results attempt batch_results final in
        let urls_to_retry' := next_retry_urls in
        let sleep :=
          if (truthy urls_to_retry' && (attempt <? max_retry))%bool
          then [Sleep retry_delay] else [] in
        match while_loop fuel' urls_to_retry' attempt final with
        | Some (final', evs') =>
            Some (final', Batch attempt urls_to_retry :: evs ++ sleep ++ evs')
        | None => None
        end
    end
  else Some (final, []).

(** [submit_urls(service, urls, max_retry, retry_delay, callback)]:
    the trace of effects and the outcome.  The loop runs with
    [max_retry] units of fuel, one per possible round. *)
Definition submit_urls (urls : list url)
    : option (list event * result final_results) :=
  if negb (truthy urls) then
    Some ([], Raise (ValueError "URL 리스트가 비어있습니다."))
  else if (100 <? List.length urls)%nat then
    Some ([], Raise (ValueError "배치 요청은 최대 100개의 URL만 허용됩니다."))
  else
    match while_loop (Z.to_nat max_retry) (urls) 0 [] with
    | Some (final, evs) => Some (evs, Return final)
    | None => None
    end.

End Submit.

(** *** Reading a trace *)
Definition is_batch (e : event) : bool :=
  match e with Batch _ _ => true | _ => false end.
Definition is_sleep (e : event) : bool :=
  match e with Sleep _ => true | _ => false end.
Definition is_callback (e : event) : bool :=
  match e with Callback _ _ _ _ => true | _ => false end.
Definition is_callback_for (u : url) (e : event) : bool :=
  match e with Callback u' _ _ _ => String.eqb u' u | _ => false end.

Definition batches (tr : list event) : list event := filter is_batch tr.
Definition sleeps (tr : list event) : list event := filter is_sleep tr.
Definition callbacks_for (u : url) (tr : list event) : list event :=
  filter (is_callback_for u) tr.

(** Whether the request for [u] in round [k] succeeds, and the error
    string surfaced when it does not. *)
Definition succeeds (svc : service) (k : Z) (u : url) : bool :=
  match svc k u with None => true | Some _ => false end.

Definition failure_message (svc : service) (k : Z) (u : url) : option string :=
  option_map error_message_of (svc k u).

(** The entry [batch_callback] stores for [u] in round [k]. *)
Definition answer (svc : service) (k : Z) (u : url) : bool * option string :=
  (succeeds svc k u, failure_message svc k u).

(** What one item of [batch_results] contributes in [handle_results]. *)
Definition item_events (max_retry : Z) (callback : bool) (attempt : Z)
    (item : string * (bool * option string)) : list event :=
  let '(u, (success, error)) := item in
  if success then notify callback u true None attempt
  else if attempt <? max_retry then []
  else notify callback u false error attempt.

Definition item_next (max_retry : Z) (attempt : Z)
    (item : string * (bool * option string)) : list url :=
  let '(u, (success, _)) := item in
  if success then [] else if attempt <? max_retry then [u] else [].

(** The traces of the [while] loop, as a relation: [loop_trace l a tr]
    when the loop entered with [urls_to_retry = l] and [attempt = a]
    produces the events [tr]. *)
Section Rounds.
Variable svc : service.
Variable max_retry : Z.
Variable retry_delay : Z.
Variable callback : bool.

Definition round_next (attempt : Z) (l : list url) : list url :=
  flat_map (item_next max_retry attempt) (_execute_batch_request svc attempt l).

Definition round_events (attempt : Z) (l : list url) : list event :=
  flat_map (item_events max_retry callback attempt)
           (_execute_batch_request svc attempt l).

Definition round_sleep (attempt : Z) (l : list url) : list event :=
  if (truthy (round_next attempt l) && (attempt <? max_retry))%bool
  then [Sleep retry_delay] else [].

Inductive loop_trace : list url -> Z -> list event -> Prop :=
| loop_exit (l : list url) (a : Z) :
    l = [] \/ max_retry <= a ->
    loop_trace l a []
| loop_round (l : list url) (a : Z) (rest : list event) :
    l <> [] -> a < max_retry ->
    loop_trace (round_next (a + 1) l) (a + 1) rest ->
    loop_trace l a
      (Batch (a + 1) l :: round_events (a + 1) l ++ round_sleep (a + 1) l ++ rest).
End Rounds.

(** A run with the error strings blanked: the rounds, the URLs of each
    round, the sleeps, and per URL the verdict and the attempt number. *)
Definition blank_event (e : event) : event :=
  match e with
  | Callback u success _ attempt => Callback u success None attempt
  | _ => e
  end.

(** Two sample services for concrete runs: [flaky_403] refuses every
    request with a permission error in round 1 and accepts from round 2
    on; [flaky_429] does the same with a quota error without message. *)
Definition flaky_403 : service :=
  fun k _ => if k <? 2 then Some (HttpError 403 (Message "denied") "HttpError 403")
             else None.

Definition flaky_429 : service :=
  fun k _ => if k <? 2 then Some (HttpError 429 NoMessage "HttpError 429")
             else None.

(** A service on which the URL [good] always succeeds and every other
    URL always fails with a quota error. *)
Definition only_good : service :=
  fun _ u => if String.eqb u "good" then None
             else Some (HttpError 429 (Message "quota") "HttpError 429").

Definition sample_urls : list url := ["good"; "bad"; "good"].

(** The round number of a batch event. *)
Definition batch_attempt (e : event) : Z :=
  match e with Batch attempt _ => attempt | _ => 0 end.

(** The rounds [1, 2, ..., n]. *)
Definition rounds_upto (n : nat) : list Z := map Z.of_nat (seq 1 n).

(** A trace without its callback events. *)
Definition without_callbacks (tr : list event) : list event :=
  filter (fun e => negb (is_callback e)) tr.

Definition blank_answer (v : bool * option string) : bool * option string :=
  (fst v, None).

Definition blank_verdict (v : bool * option string * Z) : bool * option string * Z :=
  (fst (fst v), None, snd v).

Definition blank_run (r : option (list event * result final_results))
    : option (list event * result final_results) :=
  match r with
  | Some (tr, Return final) =>
      Some (map blank_event tr, Return (map_values blank_verdict final))
  | Some (tr, Raise e) => Some (map blank_event tr, Raise e)
  | None => None
  end.

End Indexing.

(** ** The state store ([src/csv_manager.py]) *)

Module CsvManager.
Import Py.
Local Open Scope list_scope.

Definition STATUS_PENDING : string := "PENDING".
Definition STATUS_SUCCESS : string := "SUCCESS".
Definition STATUS_FAILED : string := "FAILED".

(** One line of the file: a [dict] with the six [CSV_HEADERS] as keys
    and [str] values, as [csv.DictReader] yields it for a file that
    [write_csv] wrote. *)
Record row : Type := {
  url : string;
  status : string;
  lastmod : string;
  created_at : string;
  updated_at : string;
  retry_count : string
}.

Definition table : Type := list row.

(** The file at [csv_path]: absent, or holding a table.  [saves] counts
    the [write_csv] calls made on it.  Storage is taken to be reliable:
    a table that is written is read back as it was. *)
Record disk : Type := {
  file : option table;
  saves : nat
}.

(** [read_csv]: the empty list when the file does not exist. *)
Definition read_csv (d : disk) : table :=
  match file d with
  | None => []
  | Some data => data
  end.

(** [write_csv]: replaces the whole file. *)
Definition write_csv (data : table) (d : disk) : bool * disk :=
  (true, {| file := Some data; saves := S (saves d) |}).

(** *** [update_url_status]

    [now] is the reading of [datetime.now().isoformat()]. *)
Section Update.
Variable target : string.
Variable new_status : string.
Variable increment_retry : bool.
Variable now : string.

(** The body of [if row['url'] == url:]; [int(...)] may raise. *)
Definition update_row (r : row) : result row :=
  let r1 := {| url := url r; status := new_status; lastmod := lastmod r;
               created_at := created_at r; updated_at := now;
               retry_count := retry_count r |} in
  if increment_retry then
    match int_of_str (retry_count r1) with
    | Some current_retry =>
        Return {| url := url r1; status := status r1; lastmod := lastmod r1;
                  created_at := created_at r1; updated_at := updated_at r1;
                  retry_count := str_of_int (current_retry + 1) |}
    | None => Raise (ValueError "invalid literal for int() with base 10")
    end
  else Return r1.

(** The [for row in data] loop with its [break]: the table after the
    loop and the [updated] flag. *)
Fixpoint update_loop (data : table) : result (table * bool) :=
  match data with
  | [] => Return ([], false)
  | r :: rest =>
      if String.eqb (url r) target then
        match update_row r with
        | Return r' => Return (r' :: rest, true)
        | Raise e => Raise e
        end
      else
        match update_loop rest with
        | Return (rest', updated) => Return (r :: rest', updated)
        | Raise e => Raise e
        end
  end.

Definition update_url_status (d : disk) : result bool * disk :=
  let data := read_csv d in
  match update_loop data with
  | Raise e => (Raise e, d)
  | Return (data', updated) =>
      if negb updated then (Return false, d)
      else let '(ok, d') := write_csv data' d in (Return ok, d')
  end.
End Update.

(** *** [get_pending_urls] *)
Definition get_pending_urls (limit : option Z) (d : disk) : table :=
  let data := read_csv d in
  let pending := filter (fun r => String.eqb (status r) STATUS_PENDING) data in
  match limit with
  | Some n => slice_to pending n
  | None => pending
  end.

(** *** [add_urls_batch]

    A candidate is a [dict] read with [.get('loc', '')] and
    [.get('lastmod', '')]: [None] stands for a missing key. *)
Record url_info : Type := {
  loc : option string;
  info_lastmod : option string
}.

Definition get_or_empty (v : option string) : string :=
  match v with Some s => s | None => "" end.

(** [url_info.get('loc', '')]. *)
Definition candidate_url (info : url_info) : string := get_or_empty (loc info).

(** [url in existing_urls]; the set is kept as a list of its members. *)
Definition mem (u : string) (existing_urls : list string) : bool :=
  existsb (String.eqb u) existing_urls.

Definition new_row (u lm now : string) : row :=
  {| url := u; status := STATUS_PENDING; lastmod := lm;
     created_at := now; updated_at := now; retry_count := "0" |}.

(** The [for url_info in urls] loop over [data], [existing_urls] and
    [added_count]. *)
Fixpoint add_loop (now : string) (urls : list url_info) (data : table)
    (existing_urls : list string) (added_count : Z) : table * Z :=
  match urls with
  | [] => (data, added_count)
  | info :: rest =>
      let u := get_or_empty (loc info) in
      let lm := get_or_empty (info_lastmod info) in
      if (negb (str_truthy u) || mem u existing_urls)%bool then
        add_loop now rest data existing_urls added_count
      else
        add_loop now rest (data ++ [new_row u lm now])
                 (u :: existing_urls) (added_count + 1)
  end.

Definition add_urls_batch (urls : list url_info) (now : string) (d : disk)
    : Z * disk :=
  let data := read_csv d in
  let existing_urls := map url data in
  let '(data', added_count) := add_loop now urls data existing_urls 0 in
  if 0 <? added_count then
    let '(_, d') := write_csv data' d in (added_count, d')
  else (added_count, d).

(** *** [get_statistics] *)
Record stats : Type := {
  total : Z;
  pending : Z;
  success : Z;
  failed : Z
}.

Definition count_row (st : stats) (r : row) : stats :=
  if String.eqb (status r) STATUS_PENDING then
    {| total := total st; pending := pending st + 1;
       success := success st; failed := failed st |}
  else if String.eqb (status r) STATUS_SUCCESS then
    {| total := total st; pending := pending st;
       success := success st + 1; failed := failed st |}
  else if String.eqb (status r) STATUS_FAILED then
    {| total := total st; pending := pending st;
       success := success st; failed := failed st + 1 |}
  else st.

Definition get_statistics (d : disk) : stats :=
  let data := read_csv d in
  fold_left count_row data
    {| total := Z.of_nat (List.length data); pending := 0;
       success := 0; failed := 0 |}.

(** A status outside the three literals. *)
Definition known_status (s : string) : bool :=
  (String.eqb s STATUS_PENDING || String.eqb s STATUS_SUCCESS
   || String.eqb s STATUS_FAILED)%bool.

(** The row [r] with [status] and [updated_at] replaced, and with
    [retry_count] replaced too. *)
Definition with_status (r : row) (new_status now : string) : row :=
  {| url := url r; status := new_status; lastmod := lastmod r;
     created_at := created_at r; updated_at := now;
     retry_count := retry_count r |}.

Definition with_status_retry (r : row) (new_status now retry : string) : row :=
  {| url := url r; status := new_status; lastmod := lastmod r;
     created_at := created_at r; updated_at := now;
     retry_count := retry |}.

(** Counting the rows with a given status. *)
Definition count_status (s : string) (data : table) : Z :=
  Z.of_nat (List.length (filter (fun r => String.eqb (status r) s) data)).

(** *** [get_url_status]: the status of the first record with the URL,
    [None] when there is none. *)
Fixpoint find_status (u : string) (data : table) : option string :=
  match data with
  | [] => None
  | r :: rest =>
      if String.eqb (url r) u then Some (status r) else find_status u rest
  end.

Definition get_url_status (u : string) (d : disk) : option string :=
  find_status u (read_csv d).

(** *** [add_url]

    The first loop returns [False] as soon as a record has the URL;
    otherwise a new record is appended and the table is saved. *)
Fixpoint has_url (u : string) (data : table) : bool :=
  match data with
  | [] => false
  | r :: rest => if String.eqb (url r) u then true else has_url u rest
  end.

Definition add_url (u lm now : string) (d : disk) : bool * disk :=
  let data := read_csv d in
  if has_url u data then (false, d)
  else write_csv (data ++ [new_row u lm now]) d.

(** Every [retry_count] of the table reads as an integer. *)
Definition retry_counts_readable (data : table) : Prop :=
  Forall (fun r => exists n, int_of_str (retry_count r) = Some n) data.

(** Sample data for concrete runs. *)
Definition sample_row (u st rc : string) : row :=
  {| url := u; status := st; lastmod := "2025-01-01"; created_at := "t0";
     updated_at := "t0"; retry_count := rc |}.

Definition sample_disk : disk :=
  {| file := Some [sample_row "https://b.example/1" "PENDING" "0";
                   sample_row "https://b.example/2" "FAILED" "2";
                   sample_row "https://b.example/3" "PENDING" "0";
                   sample_row "https://b.example/4" "PENDING" "abc"];
     saves := 0 |}.

Definition sample_candidates : list url_info :=
  [ {| loc := Some "https://b.example/5"; info_lastmod := Some "2025-02-01" |};
    {| loc := Some "https://b.example/1"; info_lastmod := None |};
    {| loc := Some ""; info_lastmod := None |};
    {| loc := Some "https://b.example/5"; info_lastmod := None |};
    {| loc := None; info_lastmod := Some "2025-02-02" |} ].

End CsvManager.

(** ** Configuration helpers ([src/config.py], [main.py]) *)

Module Config.
Import Py.

(** [get_domain_from_url]: drop the protocol if there is one, then keep
    what precedes the first [/].  [url.split('://')[1]] is the piece
    after the first [://]; it exists because [://] occurs in [url]. *)
Definition get_domain_from_url (url : string) : string :=
  let url :=
    if contains "://" url then nth 1 (split "://" url) EmptyString else url in
  nth 0 (split "/" url) EmptyString.

(** [get_csv_path] of [main.py], as a function of
    [config['sitemap_url']]. *)
Definition get_csv_path (sitemap_url : string) : string :=
  let domain := get_domain_from_url sitemap_url in
  path_join "data" (domain ++ ".csv")%string.

End Config.

(** ** The submission step of the orchestrator ([main.py]) *)

Module Main.
Import Py Indexing CsvManager.
Local Open Scope list_scope.

(** What [step5_submit_urls] does besides updating the file: the URL
    lists it hands to [submit_urls], and its pauses between batches. *)
Inductive step_event : Type :=
| EngineCall (batch_urls : list Indexing.url)
| Pause (seconds : Z).

(** The variables of [step5_submit_urls] that [on_result] shares with
    it, the file, and two ghost fields: [ticks] counts the callbacks
    made so far (the clock is read through it) and [log] records the
    step events. *)
Record progress : Type := {
  store : disk;
  success_count : Z;
  fail_count : Z;
  processed : Z;
  ticks : nat;
  log : list step_event
}.

Definition start (d : disk) : progress :=
  {| store := d; success_count := 0; fail_count := 0; processed := 0;
     ticks := 0; log := [] |}.

(** [range(0, total, step)] and the slice [xs[i:i + size]]. *)
Definition range_step (total step : nat) : list nat :=
  map (fun j => j * step)%nat (seq 0 ((total + step - 1) / step)).

Definition window {A : Type} (xs : list A) (i size : nat) : list A :=
  firstn size (skipn i xs).

Section Step5.
(** [clock n] is the reading of [datetime.now().isoformat()] during the
    callback number [n] of the run. *)
Variable clock : nat -> string.
(** [services i] is the behaviour of the API client during the engine
    call number [i] of the run. *)
Variable services : nat -> service.
Variable max_retry : Z.
Variable request_delay : Z.
Variable daily_limit : Z.

(** [on_result(url, success, error, attempt)]: the status update, then
    the counters.  The flag is [false] when [update_url_status] raised,
    in which case the counters are not reached. *)
Definition on_result (u : Indexing.url) (success : bool) (st : progress)
    : progress * bool :=
  let now := clock (ticks st) in
  if success then
    match update_url_status u STATUS_SUCCESS false now (store st) with
    | (Return _, d') =>
        ({| store := d'; success_count := success_count st + 1;
            fail_count := fail_count st; processed := processed st + 1;
            ticks := S (ticks st); log := log st |}, true)
    | (Raise _, d') =>
        ({| store := d'; success_count := success_count st;
            fail_count := fail_count st; processed := processed st;
            ticks := S (ticks st); log := log st |}, false)
    end
  else
    match update_url_status u STATUS_FAILED true now (store st) with
    | (Return _, d') =>
        ({| store := d'; success_count := success_count st;
            fail_count := fail_count st + 1; processed := processed st + 1;
            ticks := S (ticks st); log := log st |}, true)
    | (Raise _, d') =>
        ({| store := d'; success_count := success_count st;
            fail_count := fail_count st; processed := processed st;
            ticks := S (ticks st); log := log st |}, false)
    end.

(** The callbacks of an engine run, made in order; an exception out of
    a callback ends the run of [submit_urls] there. *)
Fixpoint play (tr : list event) (st : progress) : progress * bool :=
  match tr with
  | [] => (st, true)
  | Callback u success _ _ :: rest =>
      let '(st', ok) := on_result u success st in
      if ok then play rest st' else (st', false)
  | _ :: rest => play rest st
  end.

(** One turn of the [for i in range(0, total, batch_size)] loop: the
    engine call inside [try ... except Exception], then the pause. *)
Definition run_batch (pending_urls : table) (st : progress) (i : nat) : progress :=
  let total := List.length pending_urls in
  let batch := window pending_urls i 100 in
  let batch_urls := map url batch in
  let st1 :=
    match submit_urls (services (i / 100)) max_retry request_delay true batch_urls with
    | Some (tr, _) => fst (play tr st)
    | None => st
    end in
  let events :=
    EngineCall batch_urls ::
    (if (i + 100 <? total)%nat then [Pause request_delay] else []) in
  {| store := store st1; success_count := success_count st1;
     fail_count := fail_count st1; processed := processed st1;
     ticks := ticks st1; log := log st ++ events |}.

(** [step5_submit_urls]: the returned pair and the final state. *)
Definition step5_submit_urls (d : disk) : (Z * Z) * progress :=
  let pending_urls := get_pending_urls (Some daily_limit) d in
  if negb (truthy pending_urls) then ((0, 0), start d)
  else
    let total := List.length pending_urls in
    let st := fold_left (run_batch pending_urls) (range_step total 100) (start d) in
    ((success_count st, fail_count st), st).
End Step5.

(** The engine calls and the pauses of a log. *)
Definition engine_calls (l : list step_event) : list (list Indexing.url) :=
  flat_map (fun e => match e with EngineCall us => [us] | Pause _ => [] end) l.

Definition pauses (l : list step_event) : list Z :=
  flat_map (fun e => match e with Pause s => [s] | EngineCall _ => [] end) l.

(** The URL and verdict of every callback of a trace, in order. *)
Definition callback_results (tr : list event) : list (Indexing.url * bool) :=
  flat_map (fun e => match e with
                     | Callback u success _ _ => [(u, success)]
                     | _ => []
                     end) tr.

(** The status [on_result] writes for a verdict. *)
Definition verdict_status (success : bool) : string :=
  if success then STATUS_SUCCESS else STATUS_FAILED.

(** The URLs of the batch that starts at index [i] of the pending list. *)
Definition batch_urls_at (pending_urls : table) (i : nat) : list Indexing.url :=
  map url (window pending_urls i 100).

(** The events of the loop turn that starts at index [i]. *)
Definition events_at (request_delay : Z) (pending_urls : table) (i : nat)
    : list step_event :=
  EngineCall (batch_urls_at pending_urls i) ::
  (if (i + 100 <? List.length pending_urls)%nat then [Pause request_delay] else []).

(** A sample table of five pending records, and a constant clock. *)
Definition five_pending : disk :=
  {| file := Some (map (fun u => new_row u "" "t0") ["u1"; "u2"; "u3"; "u4"; "u5"]);
     saves := 0 |}.

Definition fixed_clock (n : nat) : string := "t1".

(** Whether some round from 1 to [max_retry] succeeds for [u]. *)
Definition succeeds_within (svc : service) (max_retry : Z) (u : Indexing.url) : bool :=
  existsb (fun k => succeeds svc k u) (rounds_upto (Z.to_nat max_retry)).

End Main.

(** ** Facts about the Python prelude *)

Module PyFacts.
Import Py.
Local Open Scope list_scope.

Lemma keys_dict_set {V : Type} (k : string) (v : V) (d : dict V) (k' : string) :
  In k' (keys (dict_set k v d)) <-> k' = k \/ In k' (keys d).
Proof.
  induction d as [|[k0 v0] d IH]; simpl.
  - intuition congruence.
  - destruct (String.eqb_spec k0 k) as [->|Hne]; simpl.
    + intuition congruence.
    + rewrite IH. intuition congruence.
Qed.

Lemma NoDup_dict_set {V : Type} (k : string) (v : V) (d : dict V) :
  NoDup (keys d) -> NoDup (keys (dict_set k v d)).
Proof.
  induction d as [|[k0 v0] d IH]; simpl; intros Hnd.
  - constructor; [intros [] | constructor].
  - inversion Hnd as [|? ? Hnotin Hnd']; subst.
    destruct (String.eqb_spec k0 k) as [->|Hne]; simpl.
    + constructor; assumption.
    + constructor; [|auto].
      fold (keys (dict_set k v d)). rewrite keys_dict_set.
      intros [->|Hin]; [congruence | contradiction].
Qed.

Lemma dict_get_set {V : Type} (k : string) (v : V) (d : dict V) (k' : string) :
  dict_get k' (dict_set k v d) =
  if String.eqb k k' then Some v else dict_get k' d.
Proof.
  induction d as [|[k0 v0] d IH]; simpl.
  - reflexivity.
  - destruct (String.eqb_spec k0 k) as [->|Hne]; simpl.
    + destruct (String.eqb k k'); reflexivity.
    + rewrite IH. destruct (String.eqb_spec k0 k') as [->|Hne'].
      * destruct (String.eqb_spec k k'); [congruence | reflexivity].
      * reflexivity.
Qed.

Lemma dict_get_In {V : Type} (d : dict V) (k : string) (v : V) :
  dict_get k d = Some v -> In (k, v) d.
Proof.
  induction d as [|[k0 v0] d IH]; simpl; [discriminate|].
  destruct (String.eqb_spec k0 k) as [->|Hne]; intros H.
  - left. congruence.
  - right. auto.
Qed.

Lemma In_dict_get {V : Type} (d : dict V) (k : string) (v : V) :
  NoDup (keys d) -> In (k, v) d -> dict_get k d = Some v.
Proof.
  induction d as [|[k0 v0] d IH]; simpl; [intros _ []|].
  intros Hnd [Heq|Hin]; inversion Hnd as [|? ? Hnotin Hnd']; subst.
  - inversion Heq; subst. now rewrite String.eqb_refl.
  - destruct (String.eqb_spec k0 k) as [->|Hne]; [|auto].
    exfalso. apply Hnotin. change (In k (keys d)).
    unfold keys. apply in_map_iff. exists (k, v). auto.
Qed.

Lemma dict_get_keys {V : Type} (d : dict V) (k : string) :
  dict_get k d = None <-> ~ In k (keys d).
Proof.
  induction d as [|[k0 v0] d IH]; simpl; [tauto|].
  destruct (String.eqb_spec k0 k) as [->|Hne].
  - split; [discriminate | intros H; exfalso; auto].
  - rewrite IH. intuition.
Qed.

Lemma map_values_dict_set {V W : Type} (g : V -> W) (k : string) (v1 v2 : V) :
  forall d1 d2 : dict V,
  map_values g d1 = map_values g d2 -> g v1 = g v2 ->
  map_values g (dict_set k v1 d1) = map_values g (dict_set k v2 d2).
Proof.
  induction d1 as [|[k1 w1] d1 IH]; intros [|[k2 w2] d2] Hd Hv;
    simpl in Hd; try discriminate.
  - simpl. now rewrite Hv.
  - inversion Hd as [[Hk Hw Hrest]]. subst k2. simpl.
    destruct (String.eqb k1 k); simpl.
    + rewrite Hv. f_equal. exact Hrest.
    + rewrite Hw. f_equal. now apply IH.
Qed.

Lemma existsb_eqb_In (u : string) (l : list string) :
  existsb (String.eqb u) l = true <-> In u l.
Proof.
  rewrite existsb_exists. split.
  - intros [x [Hin Heq]]. apply String.eqb_eq in Heq. now subst.
  - intros Hin. exists u. split; [assumption | apply String.eqb_refl].
Qed.

Lemma truthy_false {A : Type} (l : list A) : truthy l = false <-> l = [].
Proof. destruct l; simpl; split; congruence. Qed.

End PyFacts.

(** ** Facts about the submission engine *)

Module IndexingFacts.
Import Py PyFacts Indexing.
Local Open Scope list_scope.

(** *** One batch round *)

Lemma batch_callback_answer (svc : service) (a : Z) results u :
  batch_callback results u (svc a u) = dict_set u (answer svc a u) results.
Proof.
  unfold batch_callback, answer, succeeds, failure_message.
  destruct (svc a u); reflexivity.
Qed.

Lemma execute_fold_get (svc : service) (a : Z) l : forall d u,
  dict_get u (fold_left (fun results x => batch_callback results x (svc a x)) l d) =
  if existsb (String.eqb u) l then Some (answer svc a u) else dict_get u d.
Proof.
  induction l as [|x l IH]; intros d u; simpl; [reflexivity|].
  rewrite IH, batch_callback_answer, dict_get_set.
  rewrite (String.eqb_sym u x).
  destruct (existsb (String.eqb u) l); [now rewrite orb_true_r|].
  rewrite orb_false_r.
  destruct (String.eqb_spec x u) as [->|]; reflexivity.
Qed.

Lemma execute_fold_NoDup (svc : service) (a : Z) l : forall d,
  NoDup (keys d) ->
  NoDup (keys (fold_left (fun results x => batch_callback results x (svc a x)) l d)).
Proof.
  induction l as [|x l IH]; intros d Hd; simpl; [assumption|].
  apply IH. rewrite batch_callback_answer. now apply NoDup_dict_set.
Qed.

Lemma execute_NoDup svc a l : NoDup (keys (_execute_batch_request svc a l)).
Proof. apply execute_fold_NoDup. constructor. Qed.

Lemma execute_get_in svc a l u :
  In u l -> dict_get u (_execute_batch_request svc a l) = Some (answer svc a u).
Proof.
  intros Hin. unfold _execute_batch_request. rewrite execute_fold_get.
  apply existsb_eqb_In in Hin. now rewrite Hin.
Qed.

Lemma execute_get_notin svc a l u :
  ~ In u l -> dict_get u (_execute_batch_request svc a l) = None.
Proof.
  intros Hin. unfold _execute_batch_request. rewrite execute_fold_get.
  destruct (existsb (String.eqb u) l) eqn:E; [|reflexivity].
  apply existsb_eqb_In in E. contradiction.
Qed.

Lemma execute_entries svc a l u v :
  In (u, v) (_execute_batch_request svc a l) <-> In u l /\ v = answer svc a u.
Proof.
  split.
  - intros Hin. apply In_dict_get in Hin; [|apply execute_NoDup].
    destruct (in_dec string_dec u l) as [Hu|Hu].
    + rewrite (execute_get_in _ _ _ _ Hu) in Hin. split; congruence.
    + rewrite (execute_get_notin _ _ _ _ Hu) in Hin. discriminate.
  - intros [Hu ->]. apply dict_get_In. now apply execute_get_in.
Qed.

(** *** The result-handling loop of one round *)

Lemma callbacks_for_app u tr1 tr2 :
  callbacks_for u (tr1 ++ tr2) = callbacks_for u tr1 ++ callbacks_for u tr2.
Proof. apply filter_app. Qed.

Lemma callbacks_for_none u tr :
  Forall (fun e => is_callback e = false) tr -> callbacks_for u tr = [].
Proof.
  induction 1 as [|e tr He _ IH]; [reflexivity|].
  simpl. destruct e; try discriminate; simpl; apply IH.
Qed.

Section Round.
Variable max_retry : Z.
Variable callback : bool.

Lemma handle_results_spec attempt : forall items final final' next evs,
  handle_results max_retry callback attempt items final = (final', next, evs) ->
  next = flat_map (item_next max_retry attempt) items /\
  evs = flat_map (item_events max_retry callback attempt) items.
Proof.
  induction items as [|[u [success error]] items IH];
    intros final final' next evs H; simpl in H.
  - inversion H; subst. split; reflexivity.
  - simpl. destruct success.
    + destruct (handle_results _ _ _ items _) as [[f1 n1] e1] eqn:E.
      inversion H; subst. apply IH in E as [-> ->]. split; reflexivity.
    + destruct (attempt <? max_retry).
      * destruct (handle_results _ _ _ items _) as [[f1 n1] e1] eqn:E.
        inversion H; subst. apply IH in E as [-> ->]. split; reflexivity.
      * destruct (handle_results _ _ _ items _) as [[f1 n1] e1] eqn:E.
        inversion H; subst. apply IH in E as [-> ->]. split; reflexivity.
Qed.

Lemma item_events_callbacks attempt item :
  Forall (fun e => is_callback e = true)
         (item_events max_retry callback attempt item).
Proof.
  destruct item as [u [success error]]. unfold item_events, notify.
  destruct success; [|destruct (attempt <? max_retry)];
    destruct callback; repeat constructor.
Qed.

Lemma round_events_callbacks attempt items :
  Forall (fun e => is_callback e = true)
         (flat_map (item_events max_retry callback attempt) items).
Proof.
  induction items as [|item items IH]; simpl; [constructor|].
  apply Forall_app. split; [apply item_events_callbacks | assumption].
Qed.

Lemma item_events_for attempt u item :
  callbacks_for u (item_events max_retry callback attempt item) =
  if String.eqb (fst item) u
  then item_events max_retry callback attempt item else [].
Proof.
  destruct item as [u' [success error]]. unfold item_events, notify, callbacks_for.
  simpl fst.
  destruct success; [|destruct (attempt <? max_retry)];
    destruct callback; simpl; destruct (String.eqb u' u); reflexivity.
Qed.

(** With distinct keys, the callbacks of a round that concern [u] are
    those of the single item of [u], if there is one. *)
Lemma round_events_for attempt u : forall items,
  NoDup (keys items) ->
  callbacks_for u (flat_map (item_events max_retry callback attempt) items) =
  match dict_get u items with
  | Some v => item_events max_retry callback attempt (u, v)
  | None => []
  end.
Proof.
  induction items as [|[u' v'] items IH]; intros Hnd; [reflexivity|].
  inversion Hnd as [|? ? Hnotin Hnd']; subst.
  cbn [flat_map dict_get].
  rewrite callbacks_for_app, item_events_for. cbn [fst].
  destruct (String.eqb_spec u' u) as [->|Hne].
  - rewrite (IH Hnd').
    assert (Hnone : dict_get u items = None) by now apply dict_get_keys.
    rewrite Hnone. apply app_nil_r.
  - cbn [app]. now apply IH.
Qed.

Lemma round_next_in attempt u items :
  In u (flat_map (item_next max_retry attempt) items) <->
  exists error, In (u, (false, error)) items /\ attempt < max_retry.
Proof.
  rewrite in_flat_map. split.
  - intros [[u' [success error]] [Hin Hu]]. unfold item_next in Hu.
    destruct success; [destruct Hu|].
    destruct (Z.ltb_spec attempt max_retry); [|destruct Hu].
    destruct Hu as [->|[]]. eauto.
  - intros [error [Hin Hlt]]. exists (u, (false, error)). split; [assumption|].
    unfold item_next. apply Z.ltb_lt in Hlt. rewrite Hlt. now left.
Qed.
End Round.

(** *** The retry loop *)

Section Loop.
Variable svc : service.
Variable max_retry : Z.
Variable retry_delay : Z.
Variable callback : bool.

Local Abbreviation while_loop := (while_loop svc max_retry retry_delay callback).
Local Abbreviation loop_trace := (loop_trace svc max_retry retry_delay callback).
Local Abbreviation round_next := (round_next svc max_retry).
Local Abbreviation round_events := (round_events svc max_retry callback).
Local Abbreviation round_sleep := (round_sleep svc max_retry retry_delay).

Lemma while_loop_exit fuel l a final :
  l = [] \/ max_retry <= a -> while_loop fuel l a final = Some (final, []).
Proof.
  intros H. destruct fuel; simpl.
  - destruct H as [->|H]; simpl; [reflexivity|].
    apply Z.ltb_ge in H. rewrite H, andb_false_r. reflexivity.
  - destruct H as [->|H]; simpl; [reflexivity|].
    apply Z.ltb_ge in H. rewrite H, andb_false_r. reflexivity.
Qed.

Lemma while_loop_round fuel l a final :
  l <> [] -> a < max_retry ->
  exists final1,
    while_loop (S fuel) l a final =
    match while_loop fuel (round_next (a + 1) l) (a + 1) final1 with
    | Some (final', evs') =>
        Some (final', Batch (a + 1) l :: round_events (a + 1) l
                        ++ round_sleep (a + 1) l ++ evs')
    | None => None
    end.
Proof.
  intros Hl Ha. simpl.
  assert (Ht : truthy l = true) by (destruct l; [congruence | reflexivity]).
  apply Z.ltb_lt in Ha. rewrite Ht, Ha. simpl.
  destruct (handle_results max_retry callback (a + 1)
              (_execute_batch_request svc (a + 1) l) final)
    as [[final1 next] evs] eqn:E.
  apply handle_results_spec in E as [-> ->].
  exists final1. reflexivity.
Qed.

(** The loop needs at most [max_retry - attempt] iterations. *)
Lemma while_loop_total : forall fuel l a final,
  (Z.to_nat (max_retry - a) <= fuel)%nat ->
  exists final' tr, while_loop fuel l a final = Some (final', tr).
Proof.
  induction fuel as [|fuel IH]; intros l a final Hfuel.
  - exists final, []. apply while_loop_exit. right. lia.
  - destruct l as [|u l].
    + exists final, []. apply while_loop_exit. now left.
    + destruct (Z_lt_le_dec a max_retry) as [Ha|Ha].
      * destruct (while_loop_round fuel (u :: l) a final) as [final1 ->];
          [discriminate | assumption |].
        destruct (IH (round_next (a + 1) (u :: l)) (a + 1) final1)
          as [final' [tr ->]]; [lia|].
        eauto.
      * exists final, []. apply while_loop_exit. now right.
Qed.

Lemma while_loop_trace : forall fuel l a final final' tr,
  while_loop fuel l a final = Some (final', tr) -> loop_trace l a tr.
Proof.
  induction fuel as [|fuel IH]; intros l a final final' tr H.
  - simpl in H.
    destruct (truthy l && (a <? max_retry))%bool eqn:G; [discriminate|].
    inversion H; subst. constructor.
    apply andb_false_iff in G as [G|G].
    + left. now apply truthy_false.
    + right. now apply Z.ltb_ge.
  - destruct l as [|u l].
    + rewrite while_loop_exit in H by now left.
      inversion H; subst. constructor. now left.
    + destruct (Z_lt_le_dec a max_retry) as [Ha|Ha].
      * destruct (while_loop_round fuel (u :: l) a final) as [final1 E];
          [discriminate | assumption |].
        rewrite E in H.
        destruct (while_loop fuel _ _ final1) as [[f2 evs']|] eqn:E2;
          [|discriminate].
        inversion H; subst.
        apply loop_round; [discriminate | assumption | eauto].
      * rewrite while_loop_exit in H by now right.
        inversion H; subst. constructor. now right.
Qed.
End Loop.

(** *** What a round does to one URL *)

Section RoundOfUrl.
Variable svc : service.
Variable max_retry : Z.
Variable retry_delay : Z.
Variable callback : bool.

Local Abbreviation round_next := (round_next svc max_retry).
Local Abbreviation round_events := (round_events svc max_retry callback).
Local Abbreviation round_sleep := (round_sleep svc max_retry retry_delay).

Lemma round_next_iff a l u :
  In u (round_next a l) <->
  In u l /\ succeeds svc a u = false /\ a < max_retry.
Proof.
  unfold Indexing.round_next. rewrite round_next_in. split.
  - intros [error [Hin Hlt]]. apply execute_entries in Hin as [Hu Hans].
    unfold answer in Hans. inversion Hans. auto.
  - intros [Hu [Hfail Hlt]]. exists (failure_message svc a u). split; [|assumption].
    apply execute_entries. split; [assumption|].
    unfold answer. now rewrite Hfail.
Qed.

Lemma round_next_NoDup a l : NoDup (round_next a l).
Proof.
  unfold Indexing.round_next.
  pose proof (execute_NoDup svc a l) as Hnd.
  induction (_execute_batch_request svc a l) as [|[u [success error]] items IH];
    simpl; [constructor|].
  inversion Hnd as [|? ? Hnotin Hnd']; subst.
  destruct success; simpl; [auto|].
  destruct (a <? max_retry) eqn:E; simpl; [|auto].
  constructor; [|auto].
  intros Hin. apply round_next_in in Hin as [error' [Hin _]].
  apply Hnotin. change (In u (map fst items)). apply in_map_iff.
  exists (u, (false, error')). auto.
Qed.

Lemma round_events_in a l u :
  In u l ->
  callbacks_for u (round_events a l) =
  if succeeds svc a u then notify callback u true None a
  else if a <? max_retry then []
  else notify callback u false (failure_message svc a u) a.
Proof.
  intros Hu. unfold Indexing.round_events.
  rewrite round_events_for by apply execute_NoDup.
  rewrite execute_get_in by assumption. reflexivity.
Qed.

Lemma round_events_notin a l u :
  ~ In u l -> callbacks_for u (round_events a l) = [].
Proof.
  intros Hu. unfold Indexing.round_events.
  rewrite round_events_for by apply execute_NoDup.
  now rewrite execute_get_notin.
Qed.

Lemma round_sleep_no_callback a l :
  Forall (fun e => is_callback e = false) (round_sleep a l).
Proof.
  unfold Indexing.round_sleep.
  destruct (truthy _ && _)%bool; repeat constructor.
Qed.

Lemma round_events_all_callbacks a l :
  Forall (fun e => is_callback e = true) (round_events a l).
Proof. apply round_events_callbacks. Qed.

(** All requests of the round succeed, or no attempt is left: nothing is
    carried over and the round ends without a sleep. *)
Lemma round_next_nil a l :
  (forall u, In u l -> succeeds svc a u = true) \/ max_retry <= a ->
  round_next a l = [] /\ round_sleep a l = [].
Proof.
  intros H.
  assert (Hnil : round_next a l = []).
  { destruct (round_next a l) as [|u rest] eqn:E; [reflexivity|].
    assert (Hin : In u (round_next a l)) by (rewrite E; now left).
    apply round_next_iff in Hin as [Hu [Hfail Hlt]].
    destruct H as [H|H]; [rewrite (H u Hu) in Hfail; discriminate | lia]. }
  split; [assumption|].
  unfold Indexing.round_sleep. now rewrite Hnil.
Qed.
End RoundOfUrl.

(** *** Properties of the traces of the loop *)

Section Traces.
Variable svc : service.
Variable max_retry : Z.
Variable retry_delay : Z.

Lemma batches_app tr1 tr2 : batches (tr1 ++ tr2) = batches tr1 ++ batches tr2.
Proof. apply filter_app. Qed.

Lemma sleeps_app tr1 tr2 : sleeps (tr1 ++ tr2) = sleeps tr1 ++ sleeps tr2.
Proof. apply filter_app. Qed.

Lemma batches_of_callbacks tr :
  Forall (fun e => is_callback e = true) tr -> batches tr = [] /\ sleeps tr = [].
Proof.
  induction 1 as [|e tr He _ [IH1 IH2]]; [split; reflexivity|].
  destruct e; try discriminate. simpl. auto.
Qed.

Lemma batches_round_sleep a l :
  batches (round_sleep svc max_retry retry_delay a l) = [].
Proof.
  unfold round_sleep. destruct (truthy _ && _)%bool; reflexivity.
Qed.

(** Every batch of the trace is issued in a round between [a + 1] and
    [max_retry], and holds only URLs of the initial list that failed in
    every earlier round of the loop. *)
Lemma loop_trace_batches callback l a tr :
  loop_trace svc max_retry retry_delay callback l a tr ->
  forall k lk u, In (Batch k lk) tr -> In u lk ->
    In u l /\ a < k <= max_retry /\
    (forall j, a < j < k -> succeeds svc j u = false).
Proof.
  induction 1 as [l a Hexit | l a rest Hl Ha Hrest IH]; intros k lk u Hin Hu.
  - destruct Hin.
  - destruct Hin as [Heq | Hin].
    + inversion Heq; subst. repeat split; try lia; assumption.
    + apply in_app_or in Hin as [Hin | Hin].
      { pose proof (round_events_all_callbacks svc max_retry callback (a + 1) l) as Hcb.
        rewrite Forall_forall in Hcb. apply Hcb in Hin. discriminate. }
      apply in_app_or in Hin as [Hin | Hin].
      { unfold round_sleep in Hin. destruct (truthy _ && _)%bool;
          [destruct Hin as [Hin|[]]; discriminate | destruct Hin]. }
      destruct (IH k lk u Hin Hu) as [Hnext [Hk Hfail]].
      apply round_next_iff in Hnext as [Hul [Hf1 _]].
      repeat split; try lia; [assumption|].
      intros j Hj. destruct (Z.eq_dec j (a + 1)) as [->|Hne]; [assumption|].
      apply Hfail. lia.
Qed.

(** At most [max_retry - a] batches are issued. *)
Lemma loop_trace_batch_count callback l a tr :
  loop_trace svc max_retry retry_delay callback l a tr ->
  Z.of_nat (List.length (batches tr)) <= Z.max 0 (max_retry - a).
Proof.
  induction 1 as [l a Hexit | l a rest Hl Ha Hrest IH].
  - simpl. lia.
  - cbn [batches filter is_batch]. fold (batches (round_events svc max_retry callback (a + 1) l
      ++ round_sleep svc max_retry retry_delay (a + 1) l ++ rest)).
    rewrite !batches_app, batches_round_sleep.
    destruct (batches_of_callbacks _ (round_events_all_callbacks svc max_retry callback (a + 1) l))
      as [-> _].
    cbn [app List.length]. lia.
Qed.

(** The notification of one URL: nothing for a URL that is not in the
    list; otherwise a single callback, at the first round in which the
    URL succeeds or at round [max_retry] when it fails in all of them. *)
Lemma loop_trace_callbacks l a tr :
  loop_trace svc max_retry retry_delay true l a tr ->
  forall u,
    (~ In u l -> callbacks_for u tr = []) /\
    (In u l -> a < max_retry ->
     exists k, a < k <= max_retry /\
       (forall j, a < j < k -> succeeds svc j u = false) /\
       ((succeeds svc k u = true /\
         callbacks_for u tr = [Callback u true None k]) \/
        (k = max_retry /\ succeeds svc k u = false /\
         callbacks_for u tr = [Callback u false (failure_message svc k u) k]))).
Proof.
  induction 1 as [l a Hexit | l a rest Hl Ha Hrest IH]; intros u.
  - split; [reflexivity|]. intros Hu Hlt. destruct Hexit as [->|Hge]; [destruct Hu | lia].
  - destruct (IH u) as [IHout IHin].
    assert (Hcbs : callbacks_for u
              (Batch (a + 1) l :: round_events svc max_retry true (a + 1) l
                 ++ round_sleep svc max_retry retry_delay (a + 1) l ++ rest) =
            callbacks_for u (round_events svc max_retry true (a + 1) l)
              ++ callbacks_for u rest).
    { change (callbacks_for u (Batch (a + 1) l :: ?t)) with (callbacks_for u t).
      rewrite !callbacks_for_app.
      rewrite (callbacks_for_none u (round_sleep _ _ _ _ _))
        by apply round_sleep_no_callback.
      reflexivity. }
    rewrite Hcbs. split.
    + intros Hu. rewrite round_events_notin by assumption.
      rewrite IHout; [reflexivity|].
      intros Hin. apply round_next_iff in Hin as [Hin _]. contradiction.
    + intros Hu _. rewrite round_events_in by assumption.
      destruct (succeeds svc (a + 1) u) eqn:Hs.
      * exists (a + 1). split; [lia|]. split; [intros j Hj; lia|].
        left. split; [assumption|].
        rewrite IHout; [reflexivity|].
        intros Hin. apply round_next_iff in Hin as [_ [Hf _]]. congruence.
      * destruct (Z.ltb_spec (a + 1) max_retry) as [Hlt|Hge].
        -- destruct IHin as [k [Hk [Hfail Hcase]]];
             [apply round_next_iff; auto | assumption |].
           exists k. split; [lia|]. split.
           ++ intros j Hj. destruct (Z.eq_dec j (a + 1)) as [->|Hne];
                [assumption | apply Hfail; lia].
           ++ simpl. exact Hcase.
        -- exists (a + 1). split; [lia|]. split; [intros j Hj; lia|].
           right. split; [lia|]. split; [assumption|].
           rewrite IHout; [reflexivity|].
           intros Hin. apply round_next_iff in Hin as [_ [_ Hlt]]. lia.
Qed.

Lemma loop_trace_nil callback a tr :
  loop_trace svc max_retry retry_delay callback [] a tr -> tr = [].
Proof. inversion 1; [reflexivity | congruence]. Qed.

Lemma skip_non_batches xs : forall ys p k lk q,
  batches xs = [] -> xs ++ ys = p ++ Batch k lk :: q ->
  exists p', ys = p' ++ Batch k lk :: q.
Proof.
  induction xs as [|x xs IH]; intros ys p k lk q Hnb Heq; simpl in *.
  - eauto.
  - destruct (is_batch x) eqn:Hx; [discriminate|].
    destruct p as [|e p]; simpl in Heq; inversion Heq; subst.
    + discriminate.
    + eapply IH; eauto.
Qed.

(** Once a round leaves the working set empty, only the callbacks of
    that round follow: no further batch and no sleep. *)
Lemma loop_trace_tail callback l a tr :
  loop_trace svc max_retry retry_delay callback l a tr ->
  forall pre k lk post, tr = pre ++ Batch k lk :: post ->
    (forall u, In u lk -> succeeds svc k u = true) \/ max_retry <= k ->
    Forall (fun e => is_callback e = true) post.
Proof.
  induction 1 as [l a Hexit | l a rest Hl Ha Hrest IH];
    intros pre k lk post Heq Hdone.
  - destruct pre; discriminate.
  - destruct pre as [|e pre]; simpl in Heq.
    + injection Heq as Hk Hlk Hpost. subst k lk post.
      destruct (round_next_nil svc max_retry retry_delay (a + 1) l Hdone)
        as [Hnext Hsleep].
      rewrite Hnext in Hrest. apply loop_trace_nil in Hrest. subst rest.
      rewrite Hsleep, !app_nil_r. apply round_events_all_callbacks.
    + injection Heq as _ Hsplit.
      apply skip_non_batches in Hsplit as [p1 Hsplit];
        [|apply batches_of_callbacks, round_events_all_callbacks].
      apply skip_non_batches in Hsplit as [p2 Hsplit];
        [|apply batches_round_sleep].
      eapply IH; eauto.
Qed.

(** A first round in which every request succeeds is the whole run. *)
Lemma loop_trace_first_round callback l a tr :
  loop_trace svc max_retry retry_delay callback l a tr ->
  l <> [] -> a < max_retry ->
  (forall u, In u l -> succeeds svc (a + 1) u = true) ->
  batches tr = [Batch (a + 1) l] /\ sleeps tr = [].
Proof.
  intros Htr Hl Ha Hok. inversion Htr as [? ? Hexit | ? ? rest _ _ Hrest]; subst.
  - destruct Hexit; [contradiction | lia].
  - destruct (round_next_nil svc max_retry retry_delay (a + 1) l (or_introl Hok))
      as [Hnext Hsleep].
    rewrite Hnext in Hrest. apply loop_trace_nil in Hrest. subst rest.
    rewrite Hsleep, !app_nil_r.
    destruct (batches_of_callbacks _
                (round_events_all_callbacks svc max_retry callback (a + 1) l))
      as [Hb Hs].
    cbn [batches sleeps filter is_batch is_sleep].
    fold (batches (round_events svc max_retry callback (a + 1) l)).
    fold (sleeps (round_events svc max_retry callback (a + 1) l)).
    now rewrite Hb, Hs.
Qed.
End Traces.

(** *** Two services that agree on which requests succeed *)

Section Agree.
Variables svc1 svc2 : service.
Hypothesis agree : forall k u, succeeds svc1 k u = succeeds svc2 k u.
Variable max_retry : Z.
Variable retry_delay : Z.
Variable callback : bool.

Lemma execute_fold_agree a l : forall d1 d2,
  map_values blank_answer d1 = map_values blank_answer d2 ->
  map_values blank_answer
    (fold_left (fun results x => batch_callback results x (svc1 a x)) l d1) =
  map_values blank_answer
    (fold_left (fun results x => batch_callback results x (svc2 a x)) l d2).
Proof.
  induction l as [|x l IH]; intros d1 d2 Hd; simpl; [assumption|].
  apply IH. rewrite !batch_callback_answer.
  apply map_values_dict_set; [assumption|].
  unfold blank_answer, answer. simpl. now rewrite agree.
Qed.

Lemma execute_agree a l :
  map_values blank_answer (_execute_batch_request svc1 a l) =
  map_values blank_answer (_execute_batch_request svc2 a l).
Proof. apply execute_fold_agree. reflexivity. Qed.

Lemma notify_blank u success e1 e2 a :
  map blank_event (notify callback u success e1 a) =
  map blank_event (notify callback u success e2 a).
Proof. unfold notify. destruct callback; reflexivity. Qed.

Lemma handle_results_agree a : forall items1 items2 f1 f2,
  map_values blank_answer items1 = map_values blank_answer items2 ->
  map_values blank_verdict f1 = map_values blank_verdict f2 ->
  forall f1' n1 e1 f2' n2 e2,
  handle_results max_retry callback a items1 f1 = (f1', n1, e1) ->
  handle_results max_retry callback a items2 f2 = (f2', n2, e2) ->
  map_values blank_verdict f1' = map_values blank_verdict f2' /\
  n1 = n2 /\ map blank_event e1 = map blank_event e2.
Proof.
  induction items1 as [|[u1 [s1 er1]] items1 IH];
    intros [|[u2 [s2 er2]] items2] f1 f2 Hitems Hf f1' n1 e1 f2' n2 e2 H1 H2;
    simpl in Hitems; try discriminate.
  - simpl in H1, H2. inversion H1; inversion H2; subst. auto.
  - injection Hitems as Hu Hs Hrest. subst u2 s2.
    simpl in H1, H2.
    destruct (handle_results max_retry callback a items1
                (if s1 then dict_set u1 (true, None, a) f1
                 else if a <? max_retry then f1
                 else dict_set u1 (false, er1, a) f1))
      as [[g1 m1] v1] eqn:E1.
    destruct (handle_results max_retry callback a items2
                (if s1 then dict_set u1 (true, None, a) f2
                 else if a <? max_retry then f2
                 else dict_set u1 (false, er2, a) f2))
      as [[g2 m2] v2] eqn:E2.
    assert (Hrel : map_values blank_verdict g1 = map_values blank_verdict g2 /\
                   m1 = m2 /\ map blank_event v1 = map blank_event v2).
    { eapply IH; [exact Hrest | | exact E1 | exact E2].
      destruct s1; [|destruct (a <? max_retry)]; try assumption;
        now apply map_values_dict_set. }
    destruct Hrel as [Hg [Hm Hv]].
    destruct s1; [|destruct (a <? max_retry)];
      rewrite E1 in H1; rewrite E2 in H2;
      inversion H1; inversion H2; subst;
      repeat split; try assumption; try reflexivity;
      rewrite !map_app; f_equal; try assumption; apply notify_blank.
Qed.

Lemma while_loop_agree : forall fuel l a f1 f2,
  map_values blank_verdict f1 = map_values blank_verdict f2 ->
  match while_loop svc1 max_retry retry_delay callback fuel l a f1,
        while_loop svc2 max_retry retry_delay callback fuel l a f2 with
  | Some (f1', t1), Some (f2', t2) =>
      map_values blank_verdict f1' = map_values blank_verdict f2' /\
      map blank_event t1 = map blank_event t2
  | None, None => True
  | _, _ => False
  end.
Proof.
  induction fuel as [|fuel IH]; intros l a f1 f2 Hf; simpl.
  - destruct (truthy l && (a <? max_retry))%bool; auto.
  - destruct (truthy l && (a <? max_retry))%bool; [|auto].
    destruct (handle_results max_retry callback (a + 1)
                (_execute_batch_request svc1 (a + 1) l) f1)
      as [[g1 n1] e1] eqn:E1.
    destruct (handle_results max_retry callback (a + 1)
                (_execute_batch_request svc2 (a + 1) l) f2)
      as [[g2 n2] e2] eqn:E2.
    destruct (handle_results_agree (a + 1) _ _ f1 f2 (execute_agree (a + 1) l) Hf
                _ _ _ _ _ _ E1 E2) as [Hg [Hn He]].
    subst n2. specialize (IH n1 (a + 1) g1 g2 Hg).
    destruct (while_loop svc1 _ _ _ fuel n1 (a + 1) g1) as [[h1 t1]|];
      destruct (while_loop svc2 _ _ _ fuel n1 (a + 1) g2) as [[h2 t2]|];
      try contradiction; [|exact I].
    destruct IH as [Hh Ht]. split; [assumption|].
    cbn [map]. f_equal. rewrite !map_app. now rewrite He, Ht.
Qed.
End Agree.

(** *** [submit_urls] *)

Lemma submit_urls_reject svc max_retry retry_delay callback urls :
  urls = [] \/ (100 < List.length urls)%nat ->
  exists msg,
    submit_urls svc max_retry retry_delay callback urls =
    Some ([], Raise (ValueError msg)).
Proof.
  intros H. unfold submit_urls. destruct urls as [|u urls]; simpl.
  - eauto.
  - destruct H as [H|H]; [discriminate|].
    apply Nat.ltb_lt in H. simpl in H. rewrite H. eauto.
Qed.

Lemma submit_urls_run svc max_retry retry_delay callback urls :
  urls <> [] -> (List.length urls <= 100)%nat ->
  exists tr final,
    submit_urls svc max_retry retry_delay callback urls = Some (tr, Return final) /\
    loop_trace svc max_retry retry_delay callback urls 0 tr.
Proof.
  intros Hne Hlen. unfold submit_urls.
  destruct urls as [|u urls]; [congruence|]. cbn [truthy negb].
  destruct (Nat.ltb_spec 100 (List.length (u :: urls))) as [Hgt|_]; [lia|].
  destruct (while_loop_total svc max_retry retry_delay callback
              (Z.to_nat max_retry) (u :: urls) 0 []) as [final [tr E]]; [lia|].
  rewrite E. exists tr, final. split; [reflexivity|].
  eapply while_loop_trace; eauto.
Qed.

Lemma submit_urls_total svc max_retry retry_delay callback urls :
  exists tr res,
    submit_urls svc max_retry retry_delay callback urls = Some (tr, res) /\
    (tr = [] \/ loop_trace svc max_retry retry_delay callback urls 0 tr).
Proof.
  destruct urls as [|u urls].
  - exists [], (Raise (ValueError "URL 리스트가 비어있습니다.")). auto.
  - destruct (le_lt_dec (List.length (u :: urls)) 100) as [Hle|Hgt].
    + destruct (submit_urls_run svc max_retry retry_delay callback (u :: urls))
        as [tr [final [E Htr]]]; [discriminate | assumption |].
      exists tr, (Return final). auto.
    + destruct (submit_urls_reject svc max_retry retry_delay callback (u :: urls))
        as [msg E]; [now right|].
      exists [], (Raise (ValueError msg)). auto.
Qed.

(** A single URL that fails in each of three rounds: three batches, two
    sleeps, one callback at attempt 3 with the error of that round. *)
Example submit_urls_always_failing :
  submit_urls only_good 3 1 true ["bad"] =
  Some ([Batch 1 ["bad"]; Sleep 1; Batch 2 ["bad"]; Sleep 1; Batch 3 ["bad"];
         Callback "bad" false (Some "할당량 초과 (429): quota") 3],
        Return [("bad", (false, Some "할당량 초과 (429): quota", 3))]).
Proof. reflexivity. Qed.

(** The status code changes the error string that is surfaced. *)
Example error_message_depends_on_status :
  error_message_of (HttpError 403 (Message "m") "e") = "권한 없음 (403): m" /\
  error_message_of (HttpError 500 (Message "m") "e") = "m" /\
  error_message_of (HttpError 400 NoMessage "e") = "잘못된 요청 (400): e" /\
  error_message_of (HttpError 429 Unreadable "e") = "e".
Proof. repeat split; reflexivity. Qed.



(** C2 (no resubmission).  [submit_urls] returns, and in its trace a
    batch of round [k] holds only URLs of the input that failed in every
    round before [k]; hence a URL that succeeded in the batch of a round
    [j] is in no batch of a later round. *)
Theorem submit_urls_no_resubmission svc max_retry retry_delay callback urls :
  exists tr res,
    submit_urls svc max_retry retry_delay callback urls = Some (tr, res) /\
    (forall k lk u, In (Batch k lk) tr -> In u lk ->
       In u urls /\ 1 <= k <= max_retry /\
       (forall j, 1 <= j < k -> succeeds svc j u = false)) /\
    (forall j lj k lk u,
       In (Batch j lj) tr -> In u lj -> succeeds svc j u = true ->
       In (Batch k lk) tr -> j < k -> ~ In u lk).
Proof.
  destruct (submit_urls_total svc max_retry retry_delay callback urls)
    as [tr [res [E Htr]]].
  exists tr, res. split; [exact E|].
  assert (Hstrong : forall k lk u, In (Batch k lk) tr -> In u lk ->
            In u urls /\ 1 <= k <= max_retry /\
            (forall j, 1 <= j < k -> succeeds svc j u = false)).
  { intros k lk u Hin Hu. destruct Htr as [->|Htr]; [destruct Hin|].
    destruct (loop_trace_batches _ _ _ _ _ _ _ Htr k lk u Hin Hu)
      as [Hurls [Hk Hfail]].
    split; [assumption|]. split; [lia|]. intros j Hj. apply Hfail. lia. }
  split; [exact Hstrong|].
  intros j lj k lk u Hj Huj Hok Hk Hlt Huk.
  destruct (Hstrong j lj u Hj Huj) as [_ [Hj1 _]].
  destruct (Hstrong k lk u Hk Huk) as [_ [_ Hfail]].
  rewrite Hfail in Hok by lia. discriminate.
Qed.

(** C5 (batch size enforcement).  An empty list and a list of more than
    100 URLs are rejected with a [ValueError] before any batch request
    or callback is made; a list of 1 to 100 URLs is never rejected: the
    call returns its result dictionary, in which the failures of single
    URLs are recorded.  The two outcomes are told apart by the kind of
    result: the call raises exactly when the size is out of range. *)
Theorem submit_urls_size_check svc max_retry retry_delay callback urls :
  (urls = [] \/ (100 < List.length urls)%nat ->
   exists msg,
     submit_urls svc max_retry retry_delay callback urls =
     Some ([], Raise (ValueError msg))) /\
  ((1 <= List.length urls <= 100)%nat ->
   exists tr final,
     submit_urls svc max_retry retry_delay callback urls =
     Some (tr, Return final)) /\
  (forall tr e,
     submit_urls svc max_retry retry_delay callback urls = Some (tr, Raise e) ->
     urls = [] \/ (100 < List.length urls)%nat).
Proof.
  split; [apply submit_urls_reject|]. split.
  - intros [Hlo Hhi].
    destruct (submit_urls_run svc max_retry retry_delay callback urls)
      as [tr [final [E _]]]; [destruct urls; simpl in *; [lia | discriminate] | lia |].
    eauto.
  - intros tr e E.
    destruct urls as [|u urls]; [now left|]. right.
    destruct (le_lt_dec (List.length (u :: urls)) 100) as [Hle|Hgt]; [|assumption].
    destruct (submit_urls_run svc max_retry retry_delay callback (u :: urls))
      as [tr' [final [E' _]]]; [discriminate | assumption |].
    rewrite E' in E. discriminate.
Qed.

Lemma submit_urls_size_check_witness :
  (exists msg, submit_urls only_good 3 1 true [] = Some ([], Raise (ValueError msg))) /\
  (exists msg, submit_urls only_good 3 1 true (repeat "u" 101) =
               Some ([], Raise (ValueError msg))) /\
  (exists tr final,
     submit_urls only_good 3 1 true sample_urls = Some (tr, Return final)).
Proof.
  split; [|split].
  - apply (submit_urls_size_check only_good 3 1 true []). now left.
  - apply (submit_urls_size_check only_good 3 1 true (repeat "u" 101)).
    right. rewrite repeat_length. lia.
  - apply (submit_urls_size_check only_good 3 1 true sample_urls).
    simpl. lia.
Defined.

(** C7 (early exit).  [submit_urls] returns, and once a round leaves the
    working set empty (every URL of its batch succeeded, or it was round
    [max_retry]) the rest of the trace consists of callbacks only: no
    further batch request and no sleep.  In particular, when every URL
    succeeds in round 1 there is exactly one batch request and no
    sleep. *)
Theorem submit_urls_early_exit svc max_retry retry_delay callback urls :
  exists tr res,
    submit_urls svc max_retry retry_delay callback urls = Some (tr, res) /\
    (forall pre k lk post, tr = pre ++ Batch k lk :: post ->
       (forall u, In u lk -> succeeds svc k u = true) \/ max_retry <= k ->
       Forall (fun e => is_callback e = true) post) /\
    (urls <> [] -> (List.length urls <= 100)%nat -> 1 <= max_retry ->
     (forall u, In u urls -> succeeds svc 1 u = true) ->
     batches tr = [Batch 1 urls] /\ sleeps tr = []).
Proof.
  destruct (submit_urls_total svc max_retry retry_delay callback urls)
    as [tr [res [E Htr]]].
  exists tr, res. split; [exact E|]. split.
  - intros pre k lk post Heq Hdone. destruct Htr as [->|Htr].
    + destruct pre; discriminate.
    + eapply loop_trace_tail; eauto.
  - intros Hne Hlen HR Hok.
    destruct (submit_urls_run svc max_retry retry_delay callback urls Hne Hlen)
      as [tr' [final [E' Htr']]].
    rewrite E in E'. injection E' as -> _.
    apply (loop_trace_first_round _ _ _ _ _ _ _ Htr' Hne); [lia | exact Hok].
Qed.

Lemma submit_urls_early_exit_witness :
  exists tr res,
    submit_urls only_good 3 1 true ["good"] = Some (tr, res) /\
    batches tr = [Batch 1 ["good"]] /\ sleeps tr = [].
Proof.
  destruct (submit_urls_early_exit only_good 3 1 true ["good"])
    as [tr [res [E [_ Hfirst]]]].
  exists tr, res. split; [exact E|].
  apply Hfirst.
  - discriminate.
  - simpl; lia.
  - lia.
  - intros u [<-|[]]. reflexivity.
Defined.



End IndexingFacts.

(** ** Facts about the state store *)

Module CsvManagerFacts.
Import Py PyFacts CsvManager.
Local Open Scope list_scope.

(** *** [get_pending_urls] *)

Lemma filter_all {A : Type} (p : A -> bool) (l : list A) :
  Forall (fun x => p x = true) (filter p l).
Proof.
  induction l as [|x l IH]; simpl; [constructor|].
  destruct (p x) eqn:E; [constructor|]; assumption.
Qed.

Lemma Forall_firstn {A : Type} (P : A -> Prop) (n : nat) (l : list A) :
  Forall P l -> Forall P (firstn n l).
Proof.
  intros H. revert n. induction H as [|x l Hx _ IH]; intros [|n]; simpl;
    constructor; auto.
Qed.




(** *** [get_statistics] *)

Lemma count_row_fold : forall (data : table) (st : stats),
  fold_left count_row data st =
  {| total := total st;
     pending := pending st + count_status STATUS_PENDING data;
     success := success st + count_status STATUS_SUCCESS data;
     failed := failed st + count_status STATUS_FAILED data |}.
Proof.
  unfold count_status.
  induction data as [|r data IH]; intros st.
  - simpl. destruct st; simpl. f_equal; lia.
  - cbn [fold_left filter]. rewrite IH. unfold count_row.
    destruct (String.eqb_spec (status r) STATUS_PENDING) as [Hp|Hp].
    + rewrite Hp. cbn [String.eqb Ascii.eqb Bool.eqb andb total pending success failed].
      cbn [List.length]. f_equal; lia.
    + destruct (String.eqb_spec (status r) STATUS_SUCCESS) as [Hs|Hs].
      * rewrite Hs.
        cbn [String.eqb Ascii.eqb Bool.eqb andb total pending success failed].
        cbn [List.length]. f_equal; lia.
      * destruct (String.eqb_spec (status r) STATUS_FAILED) as [Hf|Hf];
          cbn [total pending success failed List.length]; f_equal; lia.
Qed.

Lemma count_partition (data : table) :
  Z.of_nat (List.length data) =
  count_status STATUS_PENDING data + count_status STATUS_SUCCESS data
  + count_status STATUS_FAILED data
  + Z.of_nat (List.length (filter (fun r => negb (known_status (status r))) data)).
Proof.
  unfold count_status, known_status.
  induction data as [|r data IH]; [reflexivity|].
  cbn [filter].
  destruct (String.eqb_spec (status r) STATUS_PENDING) as [Hp|Hp].
  - rewrite Hp.
    cbn [String.eqb Ascii.eqb Bool.eqb andb orb negb STATUS_PENDING STATUS_SUCCESS STATUS_FAILED].
    cbn [List.length]. lia.
  - destruct (String.eqb_spec (status r) STATUS_SUCCESS) as [Hs|Hs].
    + rewrite Hs.
      cbn [String.eqb Ascii.eqb Bool.eqb andb orb negb STATUS_PENDING STATUS_SUCCESS STATUS_FAILED].
      cbn [List.length]. lia.
    + destruct (String.eqb_spec (status r) STATUS_FAILED) as [Hf|Hf];
        cbn [orb negb List.length]; lia.
Qed.

Lemma filter_nil_iff {A : Type} (p : A -> bool) (l : list A) :
  filter p l = [] <-> Forall (fun x => p x = false) l.
Proof.
  induction l as [|x l IH]; simpl.
  - split; [constructor | reflexivity].
  - destruct (p x) eqn:E.
    + split; [discriminate|]. intros H. inversion H; congruence.
    + rewrite IH. split; [now constructor | intros H; now inversion H].
Qed.

(** C9 (statistics).  [total] is the number of records; [pending],
    [success] and [failed] count the records whose status is exactly the
    respective literal; a record with any other status is counted in
    [total] only, so [total >= pending + success + failed], with equality
    exactly when every status is one of the three literals. *)
Theorem get_statistics_counts (d : disk) :
  let data := read_csv d in
  let st := get_statistics d in
  total st = Z.of_nat (List.length data) /\
  pending st = count_status STATUS_PENDING data /\
  success st = count_status STATUS_SUCCESS data /\
  failed st = count_status STATUS_FAILED data /\
  total st - (pending st + success st + failed st) =
    Z.of_nat (List.length (filter (fun r => negb (known_status (status r))) data)) /\
  total st >= pending st + success st + failed st /\
  (total st = pending st + success st + failed st <->
   Forall (fun r => known_status (status r) = true) data).
Proof.
  intros data st. unfold st, get_statistics. fold data.
  rewrite count_row_fold. cbn [total pending success failed].
  pose proof (count_partition data) as Hpart.
  repeat split; try lia.
  - intros Heq.
    assert (Hnil : filter (fun r => negb (known_status (status r))) data = []).
    { destruct (filter _ data) eqn:E; [reflexivity | simpl in Hpart; lia]. }
    apply filter_nil_iff in Hnil. eapply Forall_impl; [|exact Hnil].
    intros r Hr. simpl in Hr. now apply negb_false_iff in Hr.
  - intros Hall.
    assert (Hnil : filter (fun r => negb (known_status (status r))) data = []).
    { apply filter_nil_iff. eapply Forall_impl; [|exact Hall].
      intros r Hr. simpl. now rewrite Hr. }
    rewrite Hnil in Hpart. simpl in Hpart. lia.
Qed.

(** *** [update_url_status] *)

Section UpdateFacts.
Variable target : string.
Variable new_status : string.
Variable increment_retry : bool.
Variable now : string.

Local Abbreviation update_loop := (update_loop target new_status increment_retry now).
Local Abbreviation update_row := (update_row new_status increment_retry now).
Local Abbreviation update_url_status :=
  (update_url_status target new_status increment_retry now).

Lemma update_loop_absent : forall data,
  ~ In target (map url data) -> update_loop data = Return (data, false).
Proof.
  induction data as [|r data IH]; intros Hnot; simpl; [reflexivity|].
  destruct (String.eqb_spec (url r) target) as [Heq|Hne].
  - exfalso. apply Hnot. now left.
  - rewrite IH; [reflexivity|]. intros Hin. apply Hnot. now right.
Qed.

Lemma update_loop_present : forall pre r post,
  ~ In target (map url pre) -> url r = target ->
  update_loop (pre ++ r :: post) =
  match update_row r with
  | Return r' => Return (pre ++ r' :: post, true)
  | Raise e => Raise e
  end.
Proof.
  induction pre as [|x pre IH]; intros r post Hnot Hr; simpl.
  - apply String.eqb_eq in Hr. now rewrite Hr.
  - destruct (String.eqb_spec (url x) target) as [Heq|Hne].
    + exfalso. apply Hnot. now left.
    + rewrite IH; [|intros Hin; apply Hnot; now right | assumption].
      destruct (update_row r); reflexivity.
Qed.

Lemma update_absent d :
  ~ In target (map url (read_csv d)) ->
  update_url_status d = (Return false, d).
Proof.
  intros Hnot. unfold CsvManager.update_url_status.
  now rewrite update_loop_absent.
Qed.

Lemma update_present d pre r post :
  read_csv d = pre ++ r :: post ->
  ~ In target (map url pre) -> url r = target ->
  update_url_status d =
  match update_row r with
  | Return r' =>
      (Return true, {| file := Some (pre ++ r' :: post); saves := S (saves d) |})
  | Raise e => (Raise e, d)
  end.
Proof.
  intros Hread Hnot Hr. unfold CsvManager.update_url_status.
  rewrite Hread, update_loop_present by assumption.
  destruct (update_row r); reflexivity.
Qed.
End UpdateFacts.




(** *** [add_urls_batch] *)

Lemma str_truthy_false (s : string) : str_truthy s = false <-> s = "".
Proof. destruct s; simpl; split; congruence. Qed.

(** Candidates that are all empty or already known change nothing. *)
Lemma add_loop_noop now : forall urls data existing n,
  (forall info, In info urls ->
     candidate_url info = "" \/ In (candidate_url info) existing) ->
  add_loop now urls data existing n = (data, n).
Proof.
  induction urls as [|info urls IH]; intros data existing n H; simpl;
    [reflexivity|].
  assert (Hskip : (negb (str_truthy (get_or_empty (loc info)))
                   || mem (get_or_empty (loc info)) existing)%bool = true).
  { destruct (H info (or_introl eq_refl)) as [He|Hin].
    - unfold candidate_url in He. rewrite He. reflexivity.
    - apply orb_true_iff. right. now apply existsb_eqb_In. }
  rewrite Hskip. apply IH. intros i Hi. apply H. now right.
Qed.

(** The rows appended by the loop: new, distinct, non-empty URLs, all
    PENDING with retry count 0; and afterwards every non-empty candidate
    is known. *)
Lemma add_loop_spec now : forall urls data existing n data' n',
  (forall x, In x existing <-> In x (map url data)) ->
  add_loop now urls data existing n = (data', n') ->
  exists added,
    data' = data ++ added /\
    n' = n + Z.of_nat (List.length added) /\
    NoDup (map url added) /\
    Forall (fun r => ~ In (url r) (map url data) /\ url r <> "" /\
                     status r = STATUS_PENDING /\ retry_count r = "0" /\
                     created_at r = now /\ updated_at r = now /\
                     exists info, In info urls /\ url r = candidate_url info /\
                                  lastmod r = get_or_empty (info_lastmod info))
           added /\
    (forall info, In info urls -> candidate_url info <> "" ->
       In (candidate_url info) (map url data')).
Proof.
  induction urls as [|info urls IH]; intros data existing n data' n' Hex H;
    simpl in H.
  - inversion H; subst. exists []. rewrite app_nil_r. simpl.
    split; [reflexivity|]. split; [lia|]. split; [constructor|].
    split; [constructor | intros info []].
  - destruct (str_truthy (get_or_empty (loc info))) eqn:Hs; simpl in H.
    + destruct (mem (get_or_empty (loc info)) existing) eqn:Hm.
      * destruct (IH _ _ _ _ _ Hex H) as [added [Hd [Hn [Hnd [Hall Hcov]]]]].
        exists added. repeat split; try assumption.
        -- eapply Forall_impl; [|exact Hall].
           intros r [H1 [H2 [H3 [H4 [H5 [H6 [i [Hi Hu]]]]]]]].
           repeat split; try assumption. exists i. split; [now right | assumption].
        -- intros i [<-|Hi] Hne; [|now apply Hcov].
           subst data'. rewrite map_app. apply in_or_app. left.
           apply Hex. now apply existsb_eqb_In.
      * set (u := get_or_empty (loc info)) in *.
        set (row0 := new_row u (get_or_empty (info_lastmod info)) now) in *.
        assert (Hex' : forall x, In x (u :: existing) <->
                                 In x (map url (data ++ [row0]))).
        { intros x. rewrite map_app, in_app_iff. simpl. rewrite Hex.
          intuition. }
        destruct (IH _ _ _ _ _ Hex' H) as [added [Hd [Hn [Hnd [Hall Hcov]]]]].
        assert (Hnew : ~ In u (map url data)).
        { intros Hin. apply Hex in Hin. apply existsb_eqb_In in Hin.
          unfold mem in Hm. congruence. }
        exists (row0 :: added). rewrite Hd, <- app_assoc. simpl.
        split; [reflexivity|]. split; [lia|]. split; [|split].
        -- constructor; [|assumption].
           intros Hin. apply in_map_iff in Hin as [r [Hr Hin]].
           rewrite Forall_forall in Hall. destruct (Hall r Hin) as [Hnot _].
           apply Hnot. rewrite map_app, in_app_iff. right. simpl. left.
           now rewrite Hr.
        -- constructor.
           ++ repeat split; try assumption; try reflexivity.
              ** simpl. intros He. fold u in He. rewrite He in Hs. discriminate.
              ** exists info. split; [now left | split; reflexivity].
           ++ eapply Forall_impl; [|exact Hall].
              intros r [H1 [H2 [H3 [H4 [H5 [H6 [i [Hi Hu]]]]]]]].
              repeat split; try assumption.
              ** intros Hin. apply H1. rewrite map_app, in_app_iff. now left.
              ** exists i. split; [now right | assumption].
        -- intros i [<-|Hi] Hne.
           ++ rewrite map_app, in_app_iff. right. simpl. now left.
           ++ specialize (Hcov i Hi Hne). rewrite Hd, <- app_assoc in Hcov.
              exact Hcov.
    + destruct (IH _ _ _ _ _ Hex H) as [added [Hd [Hn [Hnd [Hall Hcov]]]]].
      exists added. repeat split; try assumption.
      * eapply Forall_impl; [|exact Hall].
        intros r [H1 [H2 [H3 [H4 [H5 [H6 [i [Hi Hu]]]]]]]].
        repeat split; try assumption. exists i. split; [now right | assumption].
      * intros i [<-|Hi] Hne; [|now apply Hcov].
        apply str_truthy_false in Hs. unfold candidate_url in Hne. contradiction.
Qed.

(** What one call does to the file. *)
Lemma add_urls_batch_spec urls now d :
  exists added,
    read_csv (snd (add_urls_batch urls now d)) = read_csv d ++ added /\
    fst (add_urls_batch urls now d) = Z.of_nat (List.length added) /\
    (added = [] -> snd (add_urls_batch urls now d) = d) /\
    NoDup (map url added) /\
    Forall (fun r => ~ In (url r) (map url (read_csv d)) /\ url r <> "" /\
                     status r = STATUS_PENDING /\ retry_count r = "0" /\
                     created_at r = now /\ updated_at r = now /\
                     exists info, In info urls /\ url r = candidate_url info /\
                                  lastmod r = get_or_empty (info_lastmod info))
           added /\
    (forall info, In info urls -> candidate_url info <> "" ->
       In (candidate_url info)
          (map url (read_csv (snd (add_urls_batch urls now d))))).
Proof.
  unfold add_urls_batch.
  destruct (add_loop now urls (read_csv d) (map url (read_csv d)) 0)
    as [data' n'] eqn:E.
  destruct (add_loop_spec now urls _ _ _ _ _ (fun x => iff_refl _) E)
    as [added [Hd [Hn [Hnd [Hall Hcov]]]]].
  exists added. simpl in Hn.
  destruct (Z.ltb_spec 0 n') as [Hpos|Hzero]; cbn [fst snd write_csv].
  - unfold read_csv at 1. cbn [file].
    repeat split; try assumption.
    intros ->. simpl in Hn. lia.
  - assert (added = []) by (destruct added; [reflexivity | simpl in Hn; lia]).
    subst added. rewrite app_nil_r in Hd. subst data'.
    rewrite app_nil_r. repeat split; try assumption.
Qed.

Lemma add_urls_batch_noop urls now d :
  (forall info, In info urls ->
     candidate_url info = "" \/ In (candidate_url info) (map url (read_csv d))) ->
  add_urls_batch urls now d = (0, d).
Proof.
  intros H. unfold add_urls_batch. now rewrite add_loop_noop.
Qed.



(** C10 (nothing to add).  When every candidate has an empty URL or a
    URL that is already in the table, [add_urls_batch] returns 0 and the
    file is left as it was, without any save.  In every call the returned
    count is the number of appended records, and no appended record has
    an empty URL. *)
Theorem add_urls_batch_nothing_new (urls : list url_info) (now : string)
    (d : disk) :
  ((forall info, In info urls ->
      candidate_url info = "" \/
      In (candidate_url info) (map url (read_csv d))) ->
   add_urls_batch urls now d = (0, d)) /\
  (exists added,
     read_csv (snd (add_urls_batch urls now d)) = read_csv d ++ added /\
     fst (add_urls_batch urls now d) = Z.of_nat (List.length added) /\
     Forall (fun r => url r <> "") added).
Proof.
  split; [apply add_urls_batch_noop|].
  destruct (add_urls_batch_spec urls now d)
    as [added [Hread [Hcount [_ [_ [Hall _]]]]]].
  exists added. repeat split; try assumption.
  eapply Forall_impl; [|exact Hall].
  intros r (_ & H2 & _). exact H2.
Qed.

Lemma add_urls_batch_nothing_new_witness :
  add_urls_batch
    [ {| loc := Some "https://b.example/1"; info_lastmod := None |};
      {| loc := Some ""; info_lastmod := Some "2025-03-01" |};
      {| loc := None; info_lastmod := None |} ] "t1" sample_disk =
  (0, sample_disk).
Proof.
  apply (add_urls_batch_nothing_new
           [ {| loc := Some "https://b.example/1"; info_lastmod := None |};
             {| loc := Some ""; info_lastmod := Some "2025-03-01" |};
             {| loc := None; info_lastmod := None |} ] "t1" sample_disk).
  intros info [<-|[<-|[<-|[]]]]; simpl; auto.
Defined.

End CsvManagerFacts.

(** ** More facts about the submission engine *)

Module IndexingMore.
Import Py PyFacts Indexing IndexingFacts.
Local Open Scope list_scope.

(** *** The returned dictionary *)

Section Final.
Variable svc : service.
Variable max_retry : Z.
Variable retry_delay : Z.
Variable callback : bool.

Lemma handle_results_final attempt : forall items final final' next evs,
  handle_results max_retry callback attempt items final = (final', next, evs) ->
  NoDup (keys items) ->
  (NoDup (keys final) -> NoDup (keys final')) /\
  forall u,
    dict_get u final' =
    match dict_get u items with
    | Some (true, _) => Some (true, None, attempt)
    | Some (false, e) =>
        if attempt <? max_retry then dict_get u final
        else Some (false, e, attempt)
    | None => dict_get u final
    end.
Proof.
  induction items as [|[u' [success error]] items IH];
    intros final final' next evs H Hnd; simpl in H.
  - inversion H; subst. split; [auto | reflexivity].
  - inversion Hnd as [|? ? Hnotin Hnd']; subst.
    assert (Hnone : forall u, u' = u -> dict_get u items = None).
    { intros u <-. now apply dict_get_keys. }
    destruct success; [|destruct (attempt <? max_retry) eqn:Hlt].
    + destruct (handle_results _ _ _ items _) as [[f1 n1] e1] eqn:E.
      inversion H; subst. destruct (IH _ _ _ _ E Hnd') as [IHnd IHget].
      split; [intros Hf; apply IHnd; now apply NoDup_dict_set|].
      intros u. rewrite IHget. cbn [dict_get].
      destruct (String.eqb_spec u' u) as [Heq|Hne].
      * rewrite (Hnone u Heq), dict_get_set. subst u'. now rewrite String.eqb_refl.
      * rewrite dict_get_set.
        destruct (String.eqb_spec u' u); [contradiction | reflexivity].
    + destruct (handle_results _ _ _ items _) as [[f1 n1] e1] eqn:E.
      inversion H; subst. destruct (IH _ _ _ _ E Hnd') as [IHnd IHget].
      split; [assumption|].
      intros u. rewrite IHget. cbn [dict_get].
      destruct (String.eqb_spec u' u) as [Heq|Hne]; [|reflexivity].
      now rewrite (Hnone u Heq).
    + destruct (handle_results _ _ _ items _) as [[f1 n1] e1] eqn:E.
      inversion H; subst. destruct (IH _ _ _ _ E Hnd') as [IHnd IHget].
      split; [intros Hf; apply IHnd; now apply NoDup_dict_set|].
      intros u. rewrite IHget. cbn [dict_get].
      destruct (String.eqb_spec u' u) as [Heq|Hne].
      * rewrite (Hnone u Heq), dict_get_set. subst u'. now rewrite String.eqb_refl.
      * rewrite dict_get_set.
        destruct (String.eqb_spec u' u); [contradiction|].
        destruct (dict_get u items) as [[[|] e]|]; reflexivity.
Qed.

Lemma while_loop_final : forall fuel l a final final' tr,
  while_loop svc max_retry retry_delay callback fuel l a final = Some (final', tr) ->
  (NoDup (keys final) -> NoDup (keys final')) /\
  forall u,
    (~ In u l \/ max_retry <= a -> dict_get u final' = dict_get u final) /\
    (In u l -> a < max_retry ->
     exists k, a < k <= max_retry /\
       (forall j, a < j < k -> succeeds svc j u = false) /\
       ((succeeds svc k u = true /\ dict_get u final' = Some (true, None, k)) \/
        (k = max_retry /\ succeeds svc k u = false /\
         dict_get u final' = Some (false, failure_message svc k u, k)))).
Proof.
  induction fuel as [|fuel IH]; intros l a final final' tr H.
  - simpl in H.
    destruct (truthy l && (a <? max_retry))%bool eqn:G; [discriminate|].
    inversion H; subst. split; [auto|]. intros u. split; [reflexivity|].
    intros Hu Ha. apply andb_false_iff in G as [G|G].
    + apply truthy_false in G. subst. destruct Hu.
    + apply Z.ltb_ge in G. lia.
  - simpl in H.
    destruct (truthy l && (a <? max_retry))%bool eqn:G.
    + apply andb_true_iff in G as [Gl Ga]. apply Z.ltb_lt in Ga.
      destruct (handle_results max_retry callback (a + 1)
                  (_execute_batch_request svc (a + 1) l) final)
        as [[final1 next] evs] eqn:E.
      destruct (while_loop svc max_retry retry_delay callback fuel next (a + 1) final1)
        as [[final2 evs']|] eqn:E2; [|discriminate].
      inversion H; subst final2 tr. clear H.
      destruct (handle_results_final _ _ _ _ _ _ E (execute_NoDup svc (a + 1) l))
        as [Hnd1 Hget1].
      apply handle_results_spec in E as [Hnext _].
      change (flat_map (item_next max_retry (a + 1))
                (_execute_batch_request svc (a + 1) l))
        with (round_next svc max_retry (a + 1) l) in Hnext.
      destruct (IH _ _ _ _ _ E2) as [Hnd2 IHu].
      split; [auto|]. intros u. destruct (IHu u) as [IHout IHin]. split.
      * intros [Hu|Hge]; [|lia].
        rewrite IHout.
        -- rewrite Hget1, execute_get_notin by assumption. reflexivity.
        -- left. rewrite Hnext. intros Hin.
           apply round_next_iff in Hin as [Hin _]. contradiction.
      * intros Hu _. specialize (Hget1 u).
        rewrite (execute_get_in svc (a + 1) l u Hu) in Hget1.
        unfold answer in Hget1.
        destruct (succeeds svc (a + 1) u) eqn:Hs.
        -- exists (a + 1). split; [lia|]. split; [intros j Hj; lia|].
           left. split; [assumption|]. rewrite IHout; [assumption|].
           left. rewrite Hnext. intros Hin.
           apply round_next_iff in Hin as [_ [Hf _]]. congruence.
        -- destruct (Z.ltb_spec (a + 1) max_retry) as [Hlt|Hge].
           ++ destruct IHin as [k [Hk [Hfail Hcase]]];
                [rewrite Hnext; apply round_next_iff; auto | assumption |].
              exists k. split; [lia|]. split; [|exact Hcase].
              intros j Hj. destruct (Z.eq_dec j (a + 1)) as [->|Hne];
                [assumption | apply Hfail; lia].
           ++ exists (a + 1). split; [lia|]. split; [intros j Hj; lia|].
              right. split; [lia|]. split; [assumption|].
              rewrite IHout; [assumption | right; lia].
    + inversion H; subst. split; [auto|]. intros u. split; [reflexivity|].
      intros Hu Ha. apply andb_false_iff in G as [G|G].
      * apply truthy_false in G. subst. destruct Hu.
      * apply Z.ltb_ge in G. lia.
Qed.
End Final.



(** X2 (no attempt allowed).  With [max_retry <= 0] a list of 1 to 100
    URLs is accepted, but nothing is submitted: no batch request, no
    callback, no sleep, and the returned dictionary is empty. *)
Theorem submit_urls_without_attempts svc max_retry retry_delay callback urls :
  urls <> [] -> (List.length urls <= 100)%nat -> max_retry <= 0 ->
  submit_urls svc max_retry retry_delay callback urls = Some ([], Return []).
Proof.
  intros Hne Hlen HR. unfold submit_urls.
  destruct urls as [|u urls]; [congruence|]. cbn [truthy negb].
  destruct (Nat.ltb_spec 100 (List.length (u :: urls))) as [Hgt|_]; [lia|].
  rewrite while_loop_exit by (right; lia). reflexivity.
Qed.

Lemma submit_urls_without_attempts_witness :
  sample_urls <> [] /\ (List.length sample_urls <= 100)%nat /\ 0 <= 0 /\
  submit_urls only_good 0 1 true sample_urls = Some ([], Return []).
Proof.
  split; [discriminate|]. split; [simpl; lia|]. split; [lia|].
  apply (submit_urls_without_attempts only_good 0 1 true sample_urls).
  - discriminate.
  - simpl; lia.
  - lia.
Defined.

(** *** Shape of the rounds *)

Section Shape.
Variable svc : service.
Variable max_retry : Z.
Variable retry_delay : Z.
Variable callback : bool.

Lemma length_dict_set {V : Type} (k : string) (v : V) (d : dict V) :
  (List.length (dict_set k v d) <= S (List.length d))%nat.
Proof.
  induction d as [|[k0 v0] d IH]; simpl; [lia|].
  destruct (String.eqb k0 k); simpl; lia.
Qed.

Lemma execute_fold_length a l : forall d,
  (List.length (fold_left (fun results x => batch_callback results x (svc a x)) l d)
   <= List.length d + List.length l)%nat.
Proof.
  induction l as [|x l IH]; intros d; simpl; [lia|].
  specialize (IH (batch_callback d x (svc a x))).
  rewrite batch_callback_answer in *.
  pose proof (length_dict_set x (answer svc a x) d). lia.
Qed.

Lemma round_next_length a l :
  (List.length (round_next svc max_retry a l) <= List.length l)%nat.
Proof.
  unfold round_next.
  pose proof (execute_fold_length a l []) as Hlen. simpl in Hlen.
  fold (_execute_batch_request svc a l) in Hlen.
  assert (Hflat : forall items,
            (List.length (flat_map (item_next max_retry a) items)
             <= List.length items)%nat).
  { induction items as [|[u [success error]] items IH]; simpl; [lia|].
    rewrite length_app. destruct success; [simpl; lia|].
    destruct (a <? max_retry); simpl; lia. }
  specialize (Hflat (_execute_batch_request svc a l)). lia.
Qed.

Lemma loop_trace_batch_sizes l a tr :
  loop_trace svc max_retry retry_delay callback l a tr ->
  forall k lk, In (Batch k lk) tr ->
    lk <> [] /\ (List.length lk <= List.length l)%nat /\
    (NoDup l \/ a + 1 < k -> NoDup lk).
Proof.
  induction 1 as [l a Hexit | l a rest Hl Ha Hrest IH]; intros k lk Hin.
  - destruct Hin.
  - destruct Hin as [Heq | Hin].
    + inversion Heq; subst. split; [assumption|]. split; [lia|].
      intros [Hnd|Hlt]; [assumption | lia].
    + apply in_app_or in Hin as [Hin | Hin].
      { pose proof (round_events_all_callbacks svc max_retry callback (a + 1) l) as Hcb.
        rewrite Forall_forall in Hcb. apply Hcb in Hin. discriminate. }
      apply in_app_or in Hin as [Hin | Hin].
      { unfold round_sleep in Hin. destruct (truthy _ && _)%bool;
          [destruct Hin as [Hin|[]]; discriminate | destruct Hin]. }
      pose proof (round_next_length (a + 1) l) as Hlen.
      destruct (IH k lk Hin) as [H1 [H2 H3]].
      split; [assumption|]. split; [lia|].
      intros _. apply H3. left. apply round_next_NoDup.
Qed.

(** The batches are numbered consecutively from [a + 1], and a sleep is
    made between two consecutive batches and nowhere else. *)
Lemma loop_trace_rounds l a tr :
  loop_trace svc max_retry retry_delay callback l a tr ->
  map batch_attempt (batches tr) =
    map (fun i => a + Z.of_nat i) (seq 1 (List.length (batches tr))) /\
  sleeps tr = repeat (Sleep retry_delay) (pred (List.length (batches tr))).
Proof.
  induction 1 as [l a Hexit | l a rest Hl Ha Hrest [IHb IHs]].
  - split; reflexivity.
  - destruct (batches_of_callbacks _
                (round_events_all_callbacks svc max_retry callback (a + 1) l))
      as [Hb Hs].
    assert (Eb : batches (Batch (a + 1) l :: round_events svc max_retry callback (a + 1) l
                   ++ round_sleep svc max_retry retry_delay (a + 1) l ++ rest) =
                 Batch (a + 1) l :: batches rest).
    { cbn [batches filter is_batch].
      fold (batches (round_events svc max_retry callback (a + 1) l
                       ++ round_sleep svc max_retry retry_delay (a + 1) l ++ rest)).
      now rewrite !batches_app, Hb, batches_round_sleep. }
    assert (Es : sleeps (Batch (a + 1) l :: round_events svc max_retry callback (a + 1) l
                   ++ round_sleep svc max_retry retry_delay (a + 1) l ++ rest) =
                 round_sleep svc max_retry retry_delay (a + 1) l ++ sleeps rest).
    { cbn [sleeps filter is_sleep].
      fold (sleeps (round_events svc max_retry callback (a + 1) l
                      ++ round_sleep svc max_retry retry_delay (a + 1) l ++ rest)).
      rewrite !sleeps_app, Hs. cbn [app]. f_equal.
      unfold round_sleep. destruct (truthy _ && _)%bool; reflexivity. }
    rewrite Eb, Es. cbn [map batch_attempt List.length pred]. split.
    + rewrite IHb. cbn [seq map]. f_equal; try lia.
      replace (seq 2 (List.length (batches rest)))
        with (map S (seq 1 (List.length (batches rest)))) by apply seq_shift.
      rewrite map_map. apply map_ext. intros i. lia.
    + rewrite IHs. unfold round_sleep.
      inversion Hrest as [? ? Hexit | ? ? rest' Hl' Ha' Hrest']; subst.
      * destruct Hexit as [Hnil|Hge].
        -- rewrite Hnil. reflexivity.
        -- apply Z.ltb_ge in Hge. rewrite Hge, andb_false_r. reflexivity.
      * assert (Ht : truthy (round_next svc max_retry (a + 1) l) = true).
        { destruct (round_next svc max_retry (a + 1) l);
            [congruence | reflexivity]. }
        apply Z.ltb_lt in Ha'. rewrite Ht, Ha'. reflexivity.
Qed.
End Shape.

(** X3 (rounds and sleeps).  The batch requests of a call are numbered
    1, 2, ..., n without gap, with [n <= max_retry] (and [n = 0] when
    [max_retry <= 0] or the list is rejected), and the call sleeps
    exactly [n - 1] times, each time for [retry_delay]: once between two
    consecutive rounds, never before the first or after the last. *)
Theorem submit_urls_rounds_and_sleeps svc max_retry retry_delay callback urls :
  exists tr res n,
    submit_urls svc max_retry retry_delay callback urls = Some (tr, res) /\
    map batch_attempt (batches tr) = rounds_upto n /\
    Z.of_nat n <= Z.max 0 max_retry /\
    sleeps tr = repeat (Sleep retry_delay) (n - 1).
Proof.
  destruct (submit_urls_total svc max_retry retry_delay callback urls)
    as [tr [res [E Htr]]].
  exists tr, res, (List.length (batches tr)). split; [exact E|].
  destruct Htr as [->|Htr].
  - repeat split; simpl; lia.
  - destruct (loop_trace_rounds _ _ _ _ _ _ _ Htr) as [Hb Hs].
    pose proof (loop_trace_batch_count _ _ _ _ _ _ _ Htr) as Hc.
    split; [|split].
    + rewrite Hb. unfold rounds_upto. apply map_ext. intros i. lia.
    + lia.
    + rewrite Hs. f_equal. lia.
Qed.

(** X4 (batch sizes).  Every batch request of a call carries at least
    one URL and at most as many as the input list, hence at most 100;
    from round 2 on a batch holds no URL twice, and if the input list
    holds no URL twice no batch does. *)
Theorem submit_urls_batch_sizes svc max_retry retry_delay callback urls :
  exists tr res,
    submit_urls svc max_retry retry_delay callback urls = Some (tr, res) /\
    forall k lk, In (Batch k lk) tr ->
      lk <> [] /\ (List.length lk <= List.length urls)%nat /\
      (List.length lk <= 100)%nat /\
      (NoDup urls \/ 1 < k -> NoDup lk).
Proof.
  destruct (submit_urls_total svc max_retry retry_delay callback urls)
    as [tr [res [E Htr]]].
  exists tr, res. split; [exact E|].
  intros k lk Hin. destruct Htr as [->|Htr]; [destruct Hin|].
  destruct (loop_trace_batch_sizes _ _ _ _ _ _ _ Htr k lk Hin) as [H1 [H2 H3]].
  split; [assumption|]. split; [assumption|]. split.
  - destruct (le_lt_dec (List.length urls) 100) as [Hle|Hgt]; [lia|].
    exfalso.
    destruct (submit_urls_reject svc max_retry retry_delay callback urls)
      as [msg E']; [now right|].
    rewrite E' in E. inversion E; subst. destruct Hin.
  - intros [Hnd|Hk]; apply H3; [now left | right; lia].
Qed.

(** *** The callback is an observer *)

Section Observer.
Variable svc : service.
Variable max_retry : Z.
Variable retry_delay : Z.

Lemma handle_results_observer a : forall items final f1 n1 e1 f2 n2 e2,
  handle_results max_retry true a items final = (f1, n1, e1) ->
  handle_results max_retry false a items final = (f2, n2, e2) ->
  f1 = f2 /\ n1 = n2 /\ without_callbacks e1 = e2 /\ e2 = [].
Proof.
  induction items as [|[u [success error]] items IH];
    intros final f1 n1 e1 f2 n2 e2 H1 H2; simpl in H1, H2.
  - inversion H1; inversion H2; subst. auto.
  - destruct success; [|destruct (a <? max_retry)].
    + destruct (handle_results max_retry true a items _) as [[g1 m1] v1] eqn:E1.
      destruct (handle_results max_retry false a items _) as [[g2 m2] v2] eqn:E2.
      inversion H1; inversion H2; subst.
      destruct (IH _ _ _ _ _ _ _ E1 E2) as [-> [-> [Hv ->]]]. simpl. auto.
    + destruct (handle_results max_retry true a items _) as [[g1 m1] v1] eqn:E1.
      destruct (handle_results max_retry false a items _) as [[g2 m2] v2] eqn:E2.
      inversion H1; inversion H2; subst.
      destruct (IH _ _ _ _ _ _ _ E1 E2) as [-> [-> [Hv ->]]]. auto.
    + destruct (handle_results max_retry true a items _) as [[g1 m1] v1] eqn:E1.
      destruct (handle_results max_retry false a items _) as [[g2 m2] v2] eqn:E2.
      inversion H1; inversion H2; subst.
      destruct (IH _ _ _ _ _ _ _ E1 E2) as [-> [-> [Hv ->]]]. simpl. auto.
Qed.

Lemma without_callbacks_app tr1 tr2 :
  without_callbacks (tr1 ++ tr2) = without_callbacks tr1 ++ without_callbacks tr2.
Proof. apply filter_app. Qed.

Lemma while_loop_observer : forall fuel l a final,
  while_loop svc max_retry retry_delay false fuel l a final =
  match while_loop svc max_retry retry_delay true fuel l a final with
  | Some (final', tr) => Some (final', without_callbacks tr)
  | None => None
  end.
Proof.
  induction fuel as [|fuel IH]; intros l a final; simpl.
  - destruct (truthy l && (a <? max_retry))%bool; reflexivity.
  - destruct (truthy l && (a <? max_retry))%bool; [|reflexivity].
    destruct (handle_results max_retry true (a + 1)
                (_execute_batch_request svc (a + 1) l) final)
      as [[f1 n1] e1] eqn:E1.
    destruct (handle_results max_retry false (a + 1)
                (_execute_batch_request svc (a + 1) l) final)
      as [[f2 n2] e2] eqn:E2.
    destruct (handle_results_observer _ _ _ _ _ _ _ _ _ E1 E2)
      as [-> [-> [Hv ->]]].
    rewrite IH.
    destruct (while_loop svc max_retry retry_delay true fuel n2 (a + 1) f2)
      as [[f3 t3]|]; [|reflexivity].
    f_equal. f_equal. cbn [without_callbacks filter is_callback negb].
    fold (without_callbacks (e1 ++
            (if (truthy n2 && (a + 1 <? max_retry))%bool
             then [Sleep retry_delay] else []) ++ t3)).
    rewrite !without_callbacks_app, Hv. cbn [app]. f_equal. f_equal.
    destruct (truthy n2 && (a + 1 <? max_retry))%bool; reflexivity.
Qed.
End Observer.




End IndexingMore.

(** ** Reading back a printed integer *)

From Stdlib Require Import NArith.
From Stdlib Require DecimalPos DecimalZ.

Module PyMore.
Import Py.
Import Decimal.

Lemma digits_from_uint (u : uint) : forall acc : N,
  digits_from (Z.of_N acc) true (NilEmpty.string_of_uint u) =
  Some (Z.of_N (DecimalPos.Unsigned.of_lu (rev u)
                + acc * 10 ^ DecimalPos.Unsigned.usize u)).
Proof.
  induction u; intros acc;
    [ simpl; f_equal; lia | .. ];
    cbn [NilEmpty.string_of_uint digits_from];
    (match goal with
     | |- context [digit_of ?c] =>
         let v := eval vm_compute in (digit_of c) in
         change (digit_of c) with v
     end);
    cbv iota beta;
    (match goal with
     | |- digits_from (10 * Z.of_N acc + ?k) true _ = _ =>
         replace (10 * Z.of_N acc + k) with (Z.of_N (10 * acc + Z.to_N k)) by lia
     end);
    rewrite IHu; f_equal; f_equal;
    (match goal with
     | |- context [DecimalPos.Unsigned.of_lu (rev (?D u))] =>
         change (rev (D u)) with (revapp u (D Nil));
         rewrite (DecimalPos.Unsigned.of_lu_revapp u (D Nil))
     end);
    cbn [DecimalPos.Unsigned.usize DecimalPos.Unsigned.of_lu];
    rewrite N.pow_succ_r'; simpl Z.to_N; ring.
Qed.

Lemma unsigned_of_uint (u : uint) :
  u <> Nil ->
  unsigned_of (NilEmpty.string_of_uint u) = Some (Z.of_uint u).
Proof.
  intros Hu. unfold Z.of_uint. rewrite DecimalPos.Unsigned.of_uint_alt.
  destruct u; [congruence | ..];
    cbn [NilEmpty.string_of_uint unsigned_of];
    (match goal with
     | |- context [digit_of ?c] =>
         let v := eval vm_compute in (digit_of c) in
         change (digit_of c) with v
     end);
    cbv iota beta; cbn [digits_from];
    (match goal with
     | |- context [digit_of ?c] =>
         let v := eval vm_compute in (digit_of c) in
         change (digit_of c) with v
     end);
    cbv iota beta;
    (match goal with
     | |- digits_from (10 * 0 + ?k) true _ = _ =>
         change (10 * 0 + k) with (Z.of_N (Z.to_N k))
     end);
    rewrite digits_from_uint; f_equal; f_equal;
    (match goal with
     | |- context [DecimalPos.Unsigned.of_lu (rev (?D u))] =>
         change (rev (D u)) with (revapp u (D Nil));
         rewrite (DecimalPos.Unsigned.of_lu_revapp u (D Nil))
     end);
    cbn [DecimalPos.Unsigned.of_lu]; simpl Z.to_N; ring.
Qed.

Lemma rstrip_uint (u : uint) :
  rstrip (NilEmpty.string_of_uint u) = NilEmpty.string_of_uint u.
Proof.
  induction u; [reflexivity | ..];
    cbn [NilEmpty.string_of_uint rstrip]; rewrite IHu;
    destruct (NilEmpty.string_of_uint u); reflexivity.
Qed.

Lemma int_of_str_uint (u : uint) :
  u <> Nil ->
  int_of_str (NilEmpty.string_of_uint u) = Some (Z.of_uint u) /\
  int_of_str (String "-" (NilEmpty.string_of_uint u)) = Some (- Z.of_uint u).
Proof.
  intros Hu. pose proof (unsigned_of_uint u Hu) as Hparse.
  pose proof (rstrip_uint u) as Hr.
  unfold int_of_str. split.
  - destruct u; [congruence | ..]; cbn [NilEmpty.string_of_uint lstrip] in *;
      (match goal with
       | |- context [is_space ?c] =>
           let v := eval vm_compute in (is_space c) in
           change (is_space c) with v
       end); cbv iota; rewrite Hr; exact Hparse.
  - cbn [lstrip].
    change (is_space "-") with false. cbv iota.
    cbn [rstrip]. rewrite Hr.
    destruct (NilEmpty.string_of_uint u) eqn:Es.
    + destruct u; try congruence; discriminate.
    + cbv iota. rewrite Hparse. reflexivity.
Qed.

(** [int(str(n)) == n] for every integer [n]. *)
Lemma int_of_str_of_int (n : Z) : int_of_str (str_of_int n) = Some n.
Proof.
  unfold str_of_int.
  destruct n as [|p|p]; [reflexivity | ..]; cbn [Z.to_int NilZero.string_of_int].
  - assert (Hne : Pos.to_uint p <> Nil) by apply DecimalPos.Unsigned.to_uint_nonnil.
    unfold NilZero.string_of_uint.
    destruct (int_of_str_uint _ Hne) as [H _].
    destruct (Pos.to_uint p) eqn:E; [congruence | ..]; rewrite H;
      f_equal; rewrite <- E; change (Z.of_uint (Pos.to_uint p))
        with (Z.of_int (Z.to_int (Z.pos p))); apply DecimalZ.of_to.
  - assert (Hne : Pos.to_uint p <> Nil) by apply DecimalPos.Unsigned.to_uint_nonnil.
    unfold NilZero.string_of_uint.
    destruct (int_of_str_uint _ Hne) as [_ H].
    destruct (Pos.to_uint p) eqn:E; [congruence | ..]; rewrite H;
      f_equal; rewrite <- E; change (- Z.of_uint (Pos.to_uint p))
        with (Z.of_int (Z.to_int (Z.neg p))); apply DecimalZ.of_to.
Qed.

End PyMore.

(** ** More facts about the state store *)

Module CsvManagerMore.
Import Py PyFacts CsvManager CsvManagerFacts.
Local Open Scope list_scope.

Lemma has_url_In (u : string) (data : table) :
  has_url u data = true <-> In u (map url data).
Proof.
  induction data as [|r data IH]; simpl; [split; [discriminate | tauto]|].
  destruct (String.eqb_spec (url r) u) as [Heq|Hne].
  - split; auto.
  - rewrite IH. split; [auto | intros [H|H]; [contradiction | assumption]].
Qed.

Lemma find_status_None (u : string) (data : table) :
  find_status u data = None <-> ~ In u (map url data).
Proof.
  induction data as [|r data IH]; simpl; [tauto|].
  destruct (String.eqb_spec (url r) u) as [Heq|Hne].
  - split; [discriminate | intros H; exfalso; auto].
  - rewrite IH. tauto.
Qed.

Lemma find_status_app (u : string) (pre post : table) :
  find_status u (pre ++ post) =
  match find_status u pre with
  | Some s => Some s
  | None => find_status u post
  end.
Proof.
  induction pre as [|r pre IH]; simpl; [reflexivity|].
  destruct (String.eqb (url r) u); [reflexivity | exact IH].
Qed.

Lemma read_csv_written (data : table) (n : nat) :
  read_csv {| file := Some data; saves := n |} = data.
Proof. reflexivity. Qed.

(** The first record with a given URL. *)
Lemma first_record (u : string) (data : table) :
  In u (map url data) ->
  exists pre r post,
    data = pre ++ r :: post /\ ~ In u (map url pre) /\ url r = u.
Proof.
  induction data as [|r data IH]; simpl; [intros []|].
  intros Hin. destruct (string_dec (url r) u) as [Heq|Hne].
  - exists [], r, data. simpl. auto.
  - destruct IH as [pre [r' [post [Hd [Hpre Hr]]]]]; [tauto|].
    exists (r :: pre), r', post. subst data. simpl. split; [reflexivity|].
    split; [tauto | assumption].
Qed.

(** *** [add_url] *)

Lemma add_url_present u lm now d :
  In u (map url (read_csv d)) -> add_url u lm now d = (false, d).
Proof.
  intros Hin. unfold add_url. apply has_url_In in Hin. now rewrite Hin.
Qed.

Lemma add_url_absent u lm now d :
  ~ In u (map url (read_csv d)) ->
  add_url u lm now d =
  (true, {| file := Some (read_csv d ++ [new_row u lm now]);
            saves := S (saves d) |}).
Proof.
  intros Hout. unfold add_url.
  destruct (has_url u (read_csv d)) eqn:E; [|reflexivity].
  apply has_url_In in E. contradiction.
Qed.







(** *** [update_url_status] and [get_url_status] *)

Lemma update_row_cases new_status increment_retry now r :
  (exists r', update_row new_status increment_retry now r = Return r' /\
              url r' = url r /\ status r' = new_status /\
              lastmod r' = lastmod r /\ created_at r' = created_at r /\
              updated_at r' = now /\
              (increment_retry = false -> retry_count r' = retry_count r) /\
              (increment_retry = true ->
               exists n, int_of_str (retry_count r) = Some n /\
                         retry_count r' = str_of_int (n + 1))) \/
  (exists msg, update_row new_status increment_retry now r = Raise (ValueError msg) /\
               increment_retry = true /\ int_of_str (retry_count r) = None).
Proof.
  unfold update_row. cbn [retry_count url status lastmod created_at updated_at].
  destruct increment_retry.
  - destruct (int_of_str (retry_count r)) as [n|] eqn:E.
    + left. eexists. split; [reflexivity|]. cbn.
      repeat split; try reflexivity; [discriminate|]. intros _. eauto.
    + right. eauto.
  - left. eexists. split; [reflexivity|]. cbn.
    repeat split; try reflexivity. discriminate.
Qed.

(** The outcome of [update_url_status], by cases. *)
Lemma update_outcome target new_status increment_retry now d :
  (~ In target (map url (read_csv d)) /\
   update_url_status target new_status increment_retry now d = (Return false, d)) \/
  (exists pre r post r',
     read_csv d = pre ++ r :: post /\ ~ In target (map url pre) /\
     url r = target /\
     update_row new_status increment_retry now r = Return r' /\
     update_url_status target new_status increment_retry now d =
     (Return true, {| file := Some (pre ++ r' :: post); saves := S (saves d) |})) \/
  (exists pre r post msg,
     read_csv d = pre ++ r :: post /\ ~ In target (map url pre) /\
     url r = target /\ increment_retry = true /\
     int_of_str (retry_count r) = None /\
     update_url_status target new_status increment_retry now d =
     (Raise (ValueError msg), d)).
Proof.
  destruct (in_dec string_dec target (map url (read_csv d))) as [Hin|Hout].
  - right. destruct (first_record _ _ Hin) as [pre [r [post [Hd [Hpre Hr]]]]].
    rewrite (update_present target new_status increment_retry now d pre r post
               Hd Hpre Hr).
    destruct (update_row_cases new_status increment_retry now r)
      as [[r' [E _]]|[msg [E [Hinc Hbad]]]]; rewrite E.
    + left. exists pre, r, post, r'. auto.
    + right. exists pre, r, post, msg. auto 7.
  - left. split; [assumption | now apply update_absent].
Qed.



(** *** Retry counts stay readable *)

Lemma retry_counts_readable_app (a b : table) :
  retry_counts_readable (a ++ b) <->
  retry_counts_readable a /\ retry_counts_readable b.
Proof. unfold retry_counts_readable. apply Forall_app. Qed.



(** A found URL on a table with readable retry counts: the update goes
    through, and this is what it changes. *)
Lemma update_found target new_status increment_retry now d :
  In target (map url (read_csv d)) ->
  retry_counts_readable (read_csv d) ->
  exists d' old,
    update_url_status target new_status increment_retry now d = (Return true, d') /\
    get_url_status target d = Some old /\
    map url (read_csv d') = map url (read_csv d) /\
    retry_counts_readable (read_csv d') /\
    get_url_status target d' = Some new_status /\
    (forall u, u <> target -> get_url_status u d' = get_url_status u d) /\
    (forall y,
       count_status y (read_csv d') + (if String.eqb old y then 1 else 0) =
       count_status y (read_csv d) + (if String.eqb new_status y then 1 else 0)).
Proof.
  intros Hin Hok.
  destruct (update_outcome target new_status increment_retry now d)
    as [[Hout E]|[(pre & r & post & r' & Hd & Hpre & Hr & Hrow & E)
                 |(pre & r & post & msg & Hd & Hpre & Hr & _ & Hbad & E)]].
  - contradiction.
  - destruct (update_row_cases new_status increment_retry now r)
      as [[r2 [E2 (Hu & Hs & _ & _ & _ & Hkeep & Hinc)]]|[msg [E2 _]]];
      rewrite E2 in Hrow; [|discriminate].
    inversion Hrow; subst r2. clear Hrow.
    exists {| file := Some (pre ++ r' :: post); saves := S (saves d) |}, (status r).
    assert (Hpre' : find_status target pre = None) by now apply find_status_None.
    split; [exact E|]. split; [|split; [|split; [|split; [|split]]]].
    + unfold get_url_status. rewrite Hd, find_status_app, Hpre'. simpl.
      now rewrite Hr, String.eqb_refl.
    + rewrite read_csv_written, Hd, !map_app. simpl. now rewrite Hu.
    + rewrite read_csv_written. rewrite Hd in Hok.
      apply retry_counts_readable_app in Hok as [Hpre_ok Hrest].
      inversion Hrest as [|? ? Hr_ok Hpost_ok]; subst.
      apply retry_counts_readable_app. split; [assumption|].
      constructor; [|assumption].
      destruct increment_retry.
      * destruct (Hinc eq_refl) as [n [_ Hn]]. exists (n + 1).
        rewrite Hn. apply PyMore.int_of_str_of_int.
      * rewrite (Hkeep eq_refl). exact Hr_ok.
    + unfold get_url_status. rewrite read_csv_written, find_status_app, Hpre'.
      simpl. rewrite Hu, Hr, String.eqb_refl. now rewrite Hs.
    + intros u Hne. unfold get_url_status.
      rewrite read_csv_written, Hd, !find_status_app. simpl. rewrite Hu, Hr.
      destruct (String.eqb_spec target u); [congruence | reflexivity].
    + intros y. rewrite read_csv_written, Hd.
      unfold count_status. rewrite !filter_app, !length_app. cbn [filter].
      rewrite Hs.
      destruct (String.eqb (status r) y), (String.eqb new_status y);
        cbn [List.length]; lia.
  - exfalso. rewrite Hd in Hok.
    apply retry_counts_readable_app in Hok as [_ Hrest].
    inversion Hrest as [|? ? [n Hn] _]; subst. congruence.
Qed.

(** *** Statistics and the pending list *)

Lemma get_statistics_eq (d : disk) :
  get_statistics d =
  {| total := Z.of_nat (List.length (read_csv d));
     pending := count_status STATUS_PENDING (read_csv d);
     success := count_status STATUS_SUCCESS (read_csv d);
     failed := count_status STATUS_FAILED (read_csv d) |}.
Proof.
  unfold get_statistics. rewrite count_row_fold.
  cbn [total pending success failed]. reflexivity.
Qed.

Lemma count_status_app (s : string) (a b : table) :
  count_status s (a ++ b) = count_status s a + count_status s b.
Proof. unfold count_status. rewrite filter_app, length_app. lia. Qed.

Lemma count_status_all (s s' : string) (data : table) :
  Forall (fun r => status r = s') data ->
  count_status s data = if String.eqb s' s then Z.of_nat (List.length data) else 0.
Proof.
  unfold count_status. induction 1 as [|r data Hr _ IH]; simpl.
  - now destruct (String.eqb s' s).
  - rewrite Hr. destruct (String.eqb s' s); simpl; lia.
Qed.


(** X13 (pending list without a cap).  Without a limit
    [get_pending_urls] returns every record with status PENDING, in
    stored order, and their number is the [pending] count of
    [get_statistics].  A limit that is at least that number changes
    nothing; a negative limit [N] keeps the first [pending + N] of them
    (none when that is not positive). *)
Theorem get_pending_urls_uncapped (d : disk) (N : Z) :
  let all_pending := get_pending_urls None d in
  all_pending =
    filter (fun r => String.eqb (status r) STATUS_PENDING) (read_csv d) /\
  Z.of_nat (List.length all_pending) = pending (get_statistics d) /\
  (pending (get_statistics d) <= N -> get_pending_urls (Some N) d = all_pending) /\
  (N < 0 ->
   get_pending_urls (Some N) d =
   firstn (Z.to_nat (pending (get_statistics d) + N)) all_pending).
Proof.
  cbv zeta. rewrite get_statistics_eq. cbn [pending].
  unfold get_pending_urls, count_status.
  set (rows := filter (fun r => String.eqb (status r) STATUS_PENDING) (read_csv d)).
  split; [reflexivity|]. split; [reflexivity|]. split.
  - intros HN. unfold slice_to.
    destruct (Z.leb_spec 0 N) as [_|Hneg]; [|lia].
    apply firstn_all2. lia.
  - intros HN. unfold slice_to.
    destruct (Z.leb_spec 0 N) as [Hpos|_]; [lia | reflexivity].
Qed.

Lemma get_pending_urls_uncapped_witness :
  get_pending_urls (Some 3) sample_disk = get_pending_urls None sample_disk /\
  get_pending_urls (Some (-2)) sample_disk =
    [sample_row "https://b.example/1" "PENDING" "0"].
Proof.
  destruct (get_pending_urls_uncapped sample_disk 3) as [_ [_ [Hbig _]]].
  destruct (get_pending_urls_uncapped sample_disk (-2)) as [_ [_ [_ Hneg]]].
  split.
  - apply Hbig. vm_compute. discriminate.
  - rewrite Hneg by lia. reflexivity.
Defined.

Lemma filter_url_absent (u : string) (p : row -> bool) (data : table) :
  ~ In u (map url data) ->
  filter (fun r => negb (String.eqb (url r) u)) (filter p data) = filter p data.
Proof.
  induction data as [|r data IH]; intros Hout; simpl; [reflexivity|].
  assert (Hr : url r <> u) by (intros H; apply Hout; now left).
  assert (Hrest : ~ In u (map url data)) by (intros H; apply Hout; now right).
  destruct (p r); simpl; [|auto].
  destruct (String.eqb_spec (url r) u); [contradiction|]. simpl. f_equal. auto.
Qed.

(** X14 (a finished URL leaves the pending list).  In a table where no
    URL occurs twice, after [update_url_status] has set a URL to a
    status other than PENDING the pending list no longer holds that URL
    and holds every other pending record as before, in the same
    order. *)
Theorem updated_url_leaves_pending
    (target new_status now : string) (increment_retry : bool) (d d' : disk) :
  NoDup (map url (read_csv d)) ->
  new_status <> STATUS_PENDING ->
  update_url_status target new_status increment_retry now d = (Return true, d') ->
  get_pending_urls None d' =
    filter (fun r => negb (String.eqb (url r) target)) (get_pending_urls None d) /\
  ~ In target (map url (get_pending_urls None d')).
Proof.
  intros Hnd Hstatus Hupd.
  destruct (update_outcome target new_status increment_retry now d)
    as [[Hout E]|[(pre & r & post & r' & Hd & Hpre & Hr & Hrow & E)
                 |(pre & r & post & msg & Hd & Hpre & Hr & _ & _ & E)]];
    rewrite E in Hupd; try discriminate.
  inversion Hupd; subst d'. clear Hupd.
  destruct (update_row_cases new_status increment_retry now r)
    as [[r2 [E2 [Hu [Hs _]]]]|[msg [E2 _]]]; rewrite E2 in Hrow; [|discriminate].
  inversion Hrow; subst r2. clear Hrow.
  assert (Hpost : ~ In target (map url post)).
  { rewrite Hd, map_app in Hnd. apply NoDup_remove_2 in Hnd.
    simpl in Hnd. rewrite Hr in Hnd. intros H. apply Hnd.
    apply in_or_app. now right. }
  assert (Eq : get_pending_urls None
                 {| file := Some (pre ++ r' :: post); saves := S (saves d) |} =
               filter (fun x => String.eqb (status x) STATUS_PENDING) pre ++
               filter (fun x => String.eqb (status x) STATUS_PENDING) post).
  { unfold get_pending_urls. rewrite read_csv_written, filter_app. cbn [filter].
    rewrite Hs. destruct (String.eqb_spec new_status STATUS_PENDING);
      [contradiction | reflexivity]. }
  rewrite Eq. split.
  - unfold get_pending_urls. rewrite Hd, !filter_app. cbn [filter].
    rewrite (filter_url_absent target _ pre Hpre).
    f_equal.
    destruct (String.eqb (status r) STATUS_PENDING); cbn [filter].
    + rewrite Hr, String.eqb_refl. cbn [negb].
      symmetry. now apply filter_url_absent.
    + symmetry. now apply filter_url_absent.
  - rewrite map_app, in_app_iff.
    intros [H|H]; apply in_map_iff in H as [x [Hx Hin]];
      apply filter_In in Hin as [Hin _].
    + apply Hpre. apply in_map_iff. eauto.
    + apply Hpost. apply in_map_iff. eauto.
Qed.

Lemma updated_url_leaves_pending_witness :
  ~ In "https://b.example/1"
      (map url (get_pending_urls None
         (snd (update_url_status "https://b.example/1" "SUCCESS" false "t1"
                 sample_disk)))).
Proof.
  apply (updated_url_leaves_pending "https://b.example/1" "SUCCESS" "t1" false
           sample_disk
           (snd (update_url_status "https://b.example/1" "SUCCESS" false "t1"
                   sample_disk))).
  - simpl. repeat constructor; simpl; intuition discriminate.
  - discriminate.
  - reflexivity.
Defined.

End CsvManagerMore.

(** ** Facts about the configuration helpers *)

Module ConfigFacts.
Import Py Config.
Local Open Scope string_scope.

Lemma split_from_nonempty (sep : string) : forall s skip,
  split_from sep skip s <> [].
Proof.
  induction s as [|c s IH]; intros skip; cbn [split_from]; [discriminate|].
  destruct skip; [|apply IH].
  destruct (String.prefix sep (String c s)); [discriminate|].
  destruct (split_from sep 0 s); discriminate.
Qed.

Lemma contains_char (c a : ascii) (t : string) :
  contains (String c "") (String a t) =
  (Ascii.eqb c a || contains (String c "") t)%bool.
Proof.
  cbn [contains String.prefix].
  destruct (ascii_dec c a) as [->|Hne].
  - rewrite Ascii.eqb_refl. now destruct t.
  - apply Ascii.eqb_neq in Hne. now rewrite Hne.
Qed.

Lemma prefix_char (c a : ascii) (t : string) :
  String.prefix (String c "") (String a t) = Ascii.eqb c a.
Proof.
  cbn [String.prefix]. destruct (ascii_dec c a) as [->|Hne].
  - rewrite Ascii.eqb_refl. now destruct t.
  - apply Ascii.eqb_neq in Hne. now rewrite Hne.
Qed.

(** The first piece of [s.split('/')] holds no [/]. *)
Lemma first_piece_no_slash (s : string) :
  contains "/" (nth 0 (split "/" s) "") = false.
Proof.
  unfold split. induction s as [|c s IH]; [reflexivity|].
  cbn [split_from]. rewrite prefix_char.
  destruct (Ascii.eqb "/" c) eqn:E; [reflexivity|].
  pose proof (split_from_nonempty "/" s 0) as Hne.
  destruct (split_from "/" 0 s) as [|piece rest]; [congruence|].
  cbn [nth] in *. now rewrite contains_char, E, IH.
Qed.

(** What precedes the first [/]. *)
Lemma first_piece_before_slash (host tail : string) :
  contains "/" host = false ->
  tail = "" \/ (exists p, tail = String "/" p) ->
  nth 0 (split "/" (host ++ tail)) "" = host.
Proof.
  unfold split. induction host as [|c host IH]; intros Hhost Htail.
  - destruct Htail as [->|[p ->]]; [reflexivity|].
    cbn [append split_from]. now rewrite prefix_char.
  - rewrite contains_char in Hhost. apply orb_false_iff in Hhost as [Hc Hrest].
    cbn [append split_from]. rewrite prefix_char, Hc.
    pose proof (split_from_nonempty "/" (host ++ tail) 0) as Hne.
    specialize (IH Hrest Htail).
    destruct (split_from "/" 0 (host ++ tail)) as [|piece rest]; [congruence|].
    cbn [nth] in *. now rewrite IH.
Qed.

Lemma prefix_scheme_sep_other (c : ascii) (t : string) :
  Ascii.eqb ":" c = false -> String.prefix "://" (String c t) = false.
Proof.
  intros Hc. cbn [String.prefix].
  destruct (ascii_dec ":" c) as [<-|_]; [|reflexivity].
  now rewrite Ascii.eqb_refl in Hc.
Qed.

(** Splitting at the first [://] when no colon precedes it. *)
Lemma split_after_scheme (scheme rest : string) :
  contains ":" scheme = false ->
  split "://" (scheme ++ "://" ++ rest) = scheme :: split "://" rest /\
  contains "://" (scheme ++ "://" ++ rest) = true.
Proof.
  assert (Hhere : String.prefix "://" ("://" ++ rest) = true)
    by (cbn; now destruct rest).
  unfold split. induction scheme as [|c scheme IH]; intros Hs.
  - cbn [append] in *. split.
    + cbn [split_from]. cbn [append] in Hhere. rewrite Hhere. reflexivity.
    + cbn [contains]. cbn [append] in Hhere. now rewrite Hhere.
  - rewrite contains_char in Hs. apply orb_false_iff in Hs as [Hc Hrest].
    destruct (IH Hrest) as [IHsplit IHin].
    cbn [append split_from contains].
    rewrite (prefix_scheme_sep_other c _ Hc).
    cbn [append] in IHsplit, IHin. rewrite IHsplit. split; [reflexivity|].
    exact IHin.
Qed.

(** The first piece of [t.split('://')] when [t] starts with a host
    without colon or slash, followed by nothing or by a path. *)
Lemma first_piece_of_rest (host tail : string) :
  contains ":" host = false ->
  tail = "" \/ (exists p, tail = String "/" p) ->
  exists tail',
    nth 0 (split "://" (host ++ tail)) "" = host ++ tail' /\
    (tail' = "" \/ exists p, tail' = String "/" p).
Proof.
  unfold split. induction host as [|c host IH]; intros Hhost Htail.
  - destruct Htail as [->|[p ->]].
    + exists "". split; [reflexivity | now left].
    + cbn [append split_from]. rewrite prefix_scheme_sep_other by reflexivity.
      pose proof (split_from_nonempty "://" p 0) as Hne.
      destruct (split_from "://" 0 p) as [|piece rest]; [congruence|].
      exists (String "/" piece). split; [reflexivity | right; eauto].
  - rewrite contains_char in Hhost. apply orb_false_iff in Hhost as [Hc Hrest].
    destruct (IH Hrest Htail) as [tail' [E Ht]].
    cbn [append split_from]. rewrite (prefix_scheme_sep_other c _ Hc).
    pose proof (split_from_nonempty "://" (host ++ tail) 0) as Hne.
    destruct (split_from "://" 0 (host ++ tail)) as [|piece rest]; [congruence|].
    cbn [nth] in *. exists tail'. split; [now rewrite E | assumption].
Qed.

(** X15 (domain of a URL).  For a URL made of a protocol without colon,
    [://], a host with neither colon nor slash, and then nothing or a
    path starting with [/], [get_domain_from_url] returns the host.  For
    a URL without [://] it returns what precedes the first [/]. *)
Theorem get_domain_from_url_host (scheme host tail : string) :
  contains ":" scheme = false ->
  contains ":" host = false ->
  contains "/" host = false ->
  tail = "" \/ (exists p, tail = String "/" p) ->
  get_domain_from_url (scheme ++ "://" ++ host ++ tail) = host /\
  (contains "://" (host ++ tail) = false ->
   get_domain_from_url (host ++ tail) = host).
Proof.
  intros Hscheme Hcolon Hslash Htail. unfold get_domain_from_url. split.
  - destruct (split_after_scheme scheme (host ++ tail) Hscheme) as [Hsplit Hin].
    rewrite Hin, Hsplit. cbn [nth].
    pose proof (split_from_nonempty "://" (host ++ tail) 0) as Hne.
    destruct (first_piece_of_rest host tail Hcolon Htail) as [tail' [E Ht]].
    unfold split in *.
    destruct (split_from "://" 0 (host ++ tail)) as [|piece rest]; [congruence|].
    cbn [nth] in E. rewrite E.
    now apply first_piece_before_slash.
  - intros Hno. rewrite Hno. now apply first_piece_before_slash.
Qed.

Lemma get_domain_from_url_host_witness :
  get_domain_from_url "https://yourblog.tistory.com/sitemap.xml" =
  "yourblog.tistory.com".
Proof.
  destruct (get_domain_from_url_host "https" "yourblog.tistory.com" "/sitemap.xml")
    as [H _]; [reflexivity | reflexivity | reflexivity | right; eauto | exact H].
Defined.

(** X16 (the tracking file stays in [data/]).  Whatever the configured
    sitemap URL, the domain [get_domain_from_url] returns holds no [/],
    taking the domain of a domain changes nothing, and the tracking file
    is [data/<domain>.csv], a file directly inside [data]. *)
Theorem get_csv_path_in_data (sitemap_url : string) :
  contains "/" (get_domain_from_url sitemap_url) = false /\
  get_domain_from_url (get_domain_from_url sitemap_url) =
    get_domain_from_url sitemap_url /\
  get_csv_path sitemap_url =
    "data/" ++ get_domain_from_url sitemap_url ++ ".csv".
Proof.
  assert (Hno : contains "/" (get_domain_from_url sitemap_url) = false).
  { unfold get_domain_from_url. apply first_piece_no_slash. }
  split; [exact Hno|]. split.
  - set (dom := get_domain_from_url sitemap_url) in *.
    assert (Hsep : contains "://" dom = false).
    { clear - Hno. induction dom as [|c dom IH]; [reflexivity|].
      rewrite contains_char in Hno. apply orb_false_iff in Hno as [Hc Hrest].
      cbn [contains]. rewrite (IH Hrest), orb_false_r.
      cbn [String.prefix]. destruct (ascii_dec ":" c) as [<-|_]; [|reflexivity].
      destruct dom as [|c' dom]; [reflexivity|].
      rewrite contains_char in Hrest. apply orb_false_iff in Hrest as [Hc' _].
      cbn [String.prefix].
      destruct (ascii_dec "/" c') as [<-|_]; [discriminate | reflexivity]. }
    unfold get_domain_from_url at 1. rewrite Hsep.
    assert (Hnil : dom ++ "" = dom).
    { clear. induction dom as [|c dom IH]; [reflexivity|].
      cbn [append]. now rewrite IH. }
    rewrite <- Hnil at 1.
    apply first_piece_before_slash; [assumption | now left].
  - unfold get_csv_path, path_join.
    set (dom := get_domain_from_url sitemap_url) in *.
    assert (Hstart : String.prefix "/" (dom ++ ".csv") = false).
    { destruct dom as [|c dom]; [reflexivity|].
      rewrite contains_char in Hno. apply orb_false_iff in Hno as [Hc _].
      cbn [append]. now rewrite prefix_char. }
    rewrite Hstart. reflexivity.
Qed.

End ConfigFacts.

(** ** Facts about the submission step of the orchestrator *)

Module MainFacts.
Import Py PyFacts Indexing IndexingFacts CsvManager CsvManagerFacts CsvManagerMore Main.
Local Open Scope list_scope.

(** *** Cutting the pending list into batches *)

Lemma windows_concat {A : Type} (k : nat) : forall (n : nat) (l : list A),
  (List.length l <= n * k)%nat ->
  List.concat (map (fun j => window l (j * k) k) (seq 0 n)) = l.
Proof.
  unfold window. induction n as [|n IH]; intros l Hlen.
  - destruct l; [reflexivity | simpl in Hlen; lia].
  - cbn [seq map List.concat]. rewrite <- seq_shift, map_map.
    cbn [Nat.mul skipn].
    rewrite (map_ext _ (fun j => firstn k (skipn (j * k) (skipn k l)))).
    + rewrite IH; [apply firstn_skipn|]. rewrite length_skipn. lia.
    + intros j. rewrite skipn_skipn. f_equal. f_equal. lia.
Qed.

Lemma flat_map_same_on {A B : Type} (f g : A -> list B) (l : list A) :
  (forall x, In x l -> f x = g x) -> flat_map f l = flat_map g l.
Proof.
  induction l as [|x l IH]; intros H; [reflexivity|].
  cbn [flat_map]. rewrite (H x) by now left.
  rewrite IH; [reflexivity|]. intros y Hy. apply H. now right.
Qed.

Lemma range_step_bounds (total : nat) :
  let n := ((total + 100 - 1) / 100)%nat in
  (total <= n * 100)%nat /\
  (forall j, (j < n)%nat -> (j * 100 < total)%nat) /\
  (forall j, (j < n)%nat -> ((j * 100 + 100 <? total)%nat = (j + 1 <? n)%nat)).
Proof.
  cbv zeta.
  pose proof (Nat.div_mod_eq (total + 100 - 1) 100) as Hdiv.
  pose proof (Nat.mod_upper_bound (total + 100 - 1) 100) as Hmod.
  set (n := ((total + 100 - 1) / 100)%nat) in *.
  set (r := ((total + 100 - 1) mod 100)%nat) in *.
  split; [lia|]. split; [intros j Hj; lia|].
  intros j Hj.
  destruct (Nat.ltb_spec (j * 100 + 100) total);
    destruct (Nat.ltb_spec (j + 1) n); try reflexivity; lia.
Qed.

Section StepLog.
Variable clock : nat -> string.
Variable services : nat -> service.
Variable max_retry : Z.
Variable request_delay : Z.

Local Abbreviation run_batch :=
  (run_batch clock services max_retry request_delay).

Local Abbreviation events_at := (events_at request_delay).

Lemma fold_run_batch_log pending_urls : forall indices st,
  log (fold_left (run_batch pending_urls) indices st) =
  log st ++ flat_map (events_at pending_urls) indices.
Proof.
  induction indices as [|i indices IH]; intros st; cbn [fold_left flat_map].
  - now rewrite app_nil_r.
  - rewrite IH. unfold Main.run_batch. cbn [log].
    now rewrite <- app_assoc.
Qed.

Lemma engine_calls_events pending_urls indices :
  engine_calls (flat_map (events_at pending_urls) indices) =
  map (batch_urls_at pending_urls) indices.
Proof.
  induction indices as [|i indices IH]; [reflexivity|].
  cbn [flat_map map]. unfold engine_calls in *. rewrite flat_map_app, IH.
  unfold events_at. destruct (i + 100 <? List.length pending_urls)%nat; reflexivity.
Qed.

Lemma pauses_events pending_urls indices :
  pauses (flat_map (events_at pending_urls) indices) =
  flat_map (fun i => if (i + 100 <? List.length pending_urls)%nat
                     then [request_delay] else []) indices.
Proof.
  induction indices as [|i indices IH]; [reflexivity|].
  cbn [flat_map]. unfold pauses in *. rewrite flat_map_app, IH.
  unfold events_at. destruct (i + 100 <? List.length pending_urls)%nat; reflexivity.
Qed.

Lemma pauses_count (x : Z) : forall n s m,
  (m <= s + n)%nat ->
  flat_map (fun j => if (j <? m)%nat then [x] else []) (seq s n) = repeat x (m - s).
Proof.
  induction n as [|n IH]; intros s m Hm; cbn [seq flat_map].
  - replace (m - s)%nat with 0%nat by lia. reflexivity.
  - destruct (Nat.ltb_spec s m) as [Hlt|Hge].
    + rewrite IH by lia. replace (m - s)%nat with (S (m - S s)) by lia. reflexivity.
    + rewrite IH by lia. replace (m - s)%nat with 0%nat by lia.
      replace (m - S s)%nat with 0%nat by lia. reflexivity.
Qed.
End StepLog.



(** *** Callbacks that do not update *)

(** X18 (a callback for a URL the table does not hold).  [on_result]
    does not look at what [update_url_status] returns: for a URL without
    record the file is left as it was, and the URL is counted all the
    same, as a success or as a failure. *)
Theorem on_result_missing_url clock (u : string) (success : bool) (st : progress) :
  ~ In u (map url (read_csv (store st))) ->
  exists st',
    on_result clock u success st = (st', true) /\
    store st' = store st /\
    processed st' = processed st + 1 /\
    success_count st' = success_count st + (if success then 1 else 0) /\
    fail_count st' = fail_count st + (if success then 0 else 1).
Proof.
  intros Hout. unfold on_result. destruct success.
  - rewrite update_absent by assumption. eexists. split; [reflexivity|].
    cbn. repeat split; lia.
  - rewrite update_absent by assumption. eexists. split; [reflexivity|].
    cbn. repeat split; lia.
Qed.

Lemma on_result_missing_url_witness :
  exists st',
    on_result fixed_clock "u9" true (start five_pending) = (st', true) /\
    store st' = five_pending /\ success_count st' = 1.
Proof.
  destruct (on_result_missing_url fixed_clock "u9" true (start five_pending))
    as [st' (E & Hs & _ & Hc & _)].
  - simpl. intros [H|[H|[H|[H|[H|[]]]]]]; discriminate.
  - exists st'. split; [exact E|]. split; [exact Hs | exact Hc].
Defined.



(** *** The callbacks of one engine call *)

Lemma callback_results_filter (u : string) (tr : list event) :
  filter (fun p => String.eqb (fst p) u) (callback_results tr) =
  callback_results (callbacks_for u tr).
Proof.
  unfold callback_results, callbacks_for.
  induction tr as [|e tr IH]; [reflexivity|].
  destruct e as [a l|u' success error a|x]; cbn [flat_map filter is_callback_for app].
  - exact IH.
  - cbn [fst]. destruct (String.eqb u' u); cbn [flat_map app]; now rewrite IH.
  - exact IH.
Qed.

Lemma pairs_nodup {B : Type} (l : list (string * B)) :
  (forall u, (List.length (filter (fun p => String.eqb (fst p) u) l) <= 1)%nat) ->
  NoDup (map fst l).
Proof.
  induction l as [|[u b] l IH]; intros H; cbn [map fst]; constructor.
  - intros Hin. specialize (H u). cbn [filter fst] in H.
    rewrite String.eqb_refl in H. cbn [List.length] in H.
    apply in_map_iff in Hin as [[u' b'] [Hu Hin]]. cbn [fst] in Hu. subst u'.
    assert (Hf : In (u, b') (filter (fun p => String.eqb (fst p) u) l)).
    { apply filter_In. split; [assumption | apply String.eqb_refl]. }
    destruct (filter (fun p => String.eqb (fst p) u) l); [destruct Hf | simpl in H; lia].
  - apply IH. intros u'. specialize (H u'). cbn [filter fst] in H.
    destruct (String.eqb u u'); cbn [List.length] in H; lia.
Qed.

Lemma succeeds_within_iff svc max_retry u :
  succeeds_within svc max_retry u = true <->
  exists k, 1 <= k <= max_retry /\ succeeds svc k u = true.
Proof.
  unfold succeeds_within, rounds_upto. rewrite existsb_exists. split.
  - intros [k [Hin Hk]]. apply in_map_iff in Hin as [i [<- Hi]].
    apply in_seq in Hi. exists (Z.of_nat i). split; [lia | assumption].
  - intros [k [Hk Hs]]. exists k. split; [|assumption].
    apply in_map_iff. exists (Z.to_nat k). split; [lia|].
    apply in_seq. lia.
Qed.

(** An accepted call with [max_retry >= 1] makes one callback per
    distinct URL of the batch, successful exactly when some round up to
    [max_retry] succeeds for the URL. *)
Lemma engine_results svc max_retry retry_delay urls :
  urls <> [] -> (List.length urls <= 100)%nat -> 1 <= max_retry ->
  exists tr final,
    submit_urls svc max_retry retry_delay true urls = Some (tr, Return final) /\
    NoDup (map fst (callback_results tr)) /\
    (forall u, In u (map fst (callback_results tr)) <-> In u urls) /\
    (forall u b, In (u, b) (callback_results tr) ->
       b = succeeds_within svc max_retry u).
Proof.
  intros Hne Hlen HR.
  destruct (submit_urls_run svc max_retry retry_delay true urls Hne Hlen)
    as [tr [final [E Htr]]].
  exists tr, final. split; [exact E|].
  pose proof (loop_trace_callbacks _ _ _ _ _ _ Htr) as Hcb.
  assert (Hone : forall u,
            (~ In u urls /\
             filter (fun p => String.eqb (fst p) u) (callback_results tr) = []) \/
            (In u urls /\
             filter (fun p => String.eqb (fst p) u) (callback_results tr) =
               [(u, succeeds_within svc max_retry u)])).
  { intros u. rewrite callback_results_filter.
    destruct (Hcb u) as [Hout Hin].
    destruct (in_dec string_dec u urls) as [Hu|Hu].
    - right. split; [assumption|].
      destruct (Hin Hu) as [k [Hk [Hfail [[Hs Hc]|[HkR [Hs Hc]]]]]]; [lia | |];
        rewrite Hc; cbn; f_equal; f_equal; symmetry.
      + apply succeeds_within_iff. exists k. split; [lia | assumption].
      + destruct (succeeds_within svc max_retry u) eqn:Esw; [|reflexivity].
        apply succeeds_within_iff in Esw as [k' [Hk' Hs']].
        destruct (Z.eq_dec k' k) as [->|Hneq]; [congruence|].
        rewrite Hfail in Hs' by lia. discriminate.
    - left. split; [assumption|]. now rewrite Hout. }
  split; [|split].
  - apply pairs_nodup. intros u. destruct (Hone u) as [[_ ->]|[_ ->]]; simpl; lia.
  - intros u. split.
    + intros Hin. apply in_map_iff in Hin as [[u' b] [Hu Hin]]. cbn [fst] in Hu.
      subst u'. destruct (Hone u) as [[_ Hf]|[Hu _]]; [|assumption].
      assert (Hf' : In (u, b) (filter (fun p => String.eqb (fst p) u)
                                 (callback_results tr))).
      { apply filter_In. split; [assumption | apply String.eqb_refl]. }
      rewrite Hf in Hf'. destruct Hf'.
    + intros Hu. destruct (Hone u) as [[Hout _]|[_ Hf]]; [contradiction|].
      assert (Hin : In (u, succeeds_within svc max_retry u)
                      (filter (fun p => String.eqb (fst p) u) (callback_results tr))).
      { rewrite Hf. now left. }
      apply filter_In in Hin as [Hin _].
      apply in_map_iff. exists (u, succeeds_within svc max_retry u). auto.
  - intros u b Hin.
    assert (Hf' : In (u, b) (filter (fun p => String.eqb (fst p) u)
                               (callback_results tr))).
    { apply filter_In. split; [assumption | apply String.eqb_refl]. }
    destruct (Hone u) as [[_ Hf]|[_ Hf]]; rewrite Hf in Hf'.
    + destruct Hf'.
    + destruct Hf' as [Heq|[]]. now inversion Heq.
Qed.

(** *** Playing the callbacks on the store *)

Section Play.
Variable clock : nat -> string.
Variable urls0 : list string.

(** The table still has the URLs [urls0], and readable retry counts. *)
Local Abbreviation store_ok st :=
  (map url (read_csv (store st)) = urls0 /\
   retry_counts_readable (read_csv (store st))).

(** How far the counters and the statistics have moved between two
    states: [n] callbacks, all on records that were PENDING. *)
Local Abbreviation moved st st' n :=
  (log st' = log st /\
   processed st' - processed st = Z.of_nat n /\
   (success_count st' - success_count st) + (fail_count st' - fail_count st) =
     Z.of_nat n /\
   0 <= success_count st' - success_count st /\
   0 <= fail_count st' - fail_count st /\
   count_status STATUS_SUCCESS (read_csv (store st')) -
     count_status STATUS_SUCCESS (read_csv (store st)) =
     success_count st' - success_count st /\
   count_status STATUS_FAILED (read_csv (store st')) -
     count_status STATUS_FAILED (read_csv (store st)) =
     fail_count st' - fail_count st /\
   count_status STATUS_PENDING (read_csv (store st)) -
     count_status STATUS_PENDING (read_csv (store st')) = Z.of_nat n).

Lemma on_result_spec u b st :
  store_ok st -> In u urls0 ->
  get_url_status u (store st) = Some STATUS_PENDING ->
  exists st',
    on_result clock u b st = (st', true) /\
    store_ok st' /\ moved st st' 1%nat /\
    get_url_status u (store st') = Some (verdict_status b) /\
    (forall u', u' <> u ->
       get_url_status u' (store st') = get_url_status u' (store st)).
Proof.
  intros [Hurls Hok] Hin Hpending. unfold on_result.
  destruct b.
  - destruct (update_found u STATUS_SUCCESS false (clock (ticks st)) (store st))
      as [d' [old (E & Hold & Hu & Hr & Hget & Hother & Hcount)]];
      [now rewrite Hurls | assumption |].
    rewrite E. eexists. split; [reflexivity|]. cbn [store log processed
      success_count fail_count].
    assert (old = STATUS_PENDING) by congruence. subst old.
    pose proof (Hcount STATUS_SUCCESS) as Hc1.
    pose proof (Hcount STATUS_FAILED) as Hc2.
    pose proof (Hcount STATUS_PENDING) as Hc3.
    cbn in Hc1, Hc2, Hc3.
    split; [split; [congruence | assumption]|].
    split; [repeat split; lia|]. split; assumption.
  - destruct (update_found u STATUS_FAILED true (clock (ticks st)) (store st))
      as [d' [old (E & Hold & Hu & Hr & Hget & Hother & Hcount)]];
      [now rewrite Hurls | assumption |].
    rewrite E. eexists. split; [reflexivity|]. cbn [store log processed
      success_count fail_count].
    assert (old = STATUS_PENDING) by congruence. subst old.
    pose proof (Hcount STATUS_SUCCESS) as Hc1.
    pose proof (Hcount STATUS_FAILED) as Hc2.
    pose proof (Hcount STATUS_PENDING) as Hc3.
    cbn in Hc1, Hc2, Hc3.
    split; [split; [congruence | assumption]|].
    split; [repeat split; lia|]. split; assumption.
Qed.

Lemma play_spec : forall tr st,
  store_ok st ->
  NoDup (map fst (callback_results tr)) ->
  (forall u, In u (map fst (callback_results tr)) ->
     In u urls0 /\ get_url_status u (store st) = Some STATUS_PENDING) ->
  exists st',
    play clock tr st = (st', true) /\
    store_ok st' /\
    moved st st' (List.length (callback_results tr)) /\
    (forall u b, In (u, b) (callback_results tr) ->
       get_url_status u (store st') = Some (verdict_status b)) /\
    (forall u, ~ In u (map fst (callback_results tr)) ->
       get_url_status u (store st') = get_url_status u (store st)).
Proof.
  induction tr as [|e tr IH]; intros st Hok Hnd Hpending.
  - exists st. destruct Hok. cbn.
    repeat split; try assumption; try tauto; try lia.
  - destruct e as [a l|u b error a|x].
    + apply (IH st Hok Hnd Hpending).
    + change (callback_results (Callback u b error a :: tr))
        with ((u, b) :: callback_results tr) in *.
      cbn [map fst] in Hnd, Hpending.
      inversion Hnd as [|? ? Hfresh Hnd']; subst.
      destruct (Hpending u (or_introl eq_refl)) as [Hin Hp].
      destruct (on_result_spec u b st Hok Hin Hp)
        as [st1 (E1 & Hok1 & Hmoved1 & Hget1 & Hother1)].
      destruct (IH st1 Hok1 Hnd') as [st2 (E2 & Hok2 & Hmoved2 & Hget2 & Hother2)].
      { intros u' Hu'. destruct (Hpending u' (or_intror Hu')) as [Hin' Hp'].
        split; [assumption|]. rewrite Hother1; [assumption|].
        intros ->. contradiction. }
      exists st2. cbn [play]. rewrite E1, E2.
      split; [reflexivity|]. split; [assumption|].
      split; [|split].
      * cbn [List.length].
        destruct Hmoved1 as (L1 & P1 & C1 & S1 & F1 & CS1 & CF1 & CP1).
        destruct Hmoved2 as (L2 & P2 & C2 & S2 & F2 & CS2 & CF2 & CP2).
        repeat split; try congruence; lia.
      * intros u' b' [Heq|Hin'].
        -- inversion Heq; subst. rewrite Hother2; assumption.
        -- now apply Hget2.
      * intros u' Hu'. cbn [map fst] in Hu'.
        rewrite Hother2; [|intros Hin'; apply Hu'; now right].
        apply Hother1. intros ->. apply Hu'. now left.
    + apply (IH st Hok Hnd Hpending).
Qed.
End Play.

(** *** The whole loop *)

Lemma NoDup_app_disjoint {A : Type} (a b : list A) (x : A) :
  NoDup (a ++ b) -> In x a -> ~ In x b.
Proof.
  induction a as [|y a IH]; intros Hnd Hin; [destruct Hin|].
  cbn [app] in Hnd. inversion Hnd as [|? ? Hy Hnd']; subst.
  destruct Hin as [->|Hin]; [|now apply IH].
  intros Hb. apply Hy. apply in_or_app. now right.
Qed.

Lemma same_members_length (a b : list string) :
  NoDup a -> NoDup b -> (forall x, In x a <-> In x b) ->
  List.length a = List.length b.
Proof.
  intros Ha Hb Hab. apply Nat.le_antisymm.
  - apply NoDup_incl_length; [assumption|]. intros x Hx. now apply Hab.
  - apply NoDup_incl_length; [assumption|]. intros x Hx. now apply Hab.
Qed.

Lemma find_status_unique (data : table) (r : row) :
  NoDup (map url data) -> In r data ->
  find_status (url r) data = Some (status r).
Proof.
  induction data as [|x data IH]; intros Hnd Hin; [destruct Hin|].
  cbn [map] in Hnd. inversion Hnd as [|? ? Hx Hnd']; subst.
  cbn [find_status]. destruct Hin as [->|Hin].
  - now rewrite String.eqb_refl.
  - destruct (String.eqb_spec (url x) (url r)) as [Heq|Hne]; [|auto].
    exfalso. apply Hx. rewrite Heq. now apply in_map.
Qed.

Lemma NoDup_map_filter (p : row -> bool) (data : table) :
  NoDup (map url data) -> NoDup (map url (filter p data)).
Proof.
  induction data as [|x data IH]; intros Hnd; [constructor|].
  cbn [map] in Hnd. inversion Hnd as [|? ? Hx Hnd']; subst.
  cbn [filter]. destruct (p x); [|auto].
  cbn [map]. constructor; [|auto].
  intros Hin. apply Hx. apply in_map_iff in Hin as [y [Hy Hin]].
  apply filter_In in Hin as [Hin _]. rewrite <- Hy. now apply in_map.
Qed.

Lemma slice_to_firstn {A : Type} (l : list A) (n : Z) :
  exists m, slice_to l n = firstn m l.
Proof. unfold slice_to. destruct (0 <=? n); eauto. Qed.

(** The records drawn by [get_pending_urls]: records of the table with
    status PENDING, with distinct URLs if the table has distinct URLs. *)
Lemma pending_rows limit d :
  let P := get_pending_urls limit d in
  (forall r, In r P -> In r (read_csv d) /\ status r = STATUS_PENDING) /\
  (NoDup (map url (read_csv d)) -> NoDup (map url P)).
Proof.
  cbv zeta. unfold get_pending_urls.
  set (F := filter (fun r => String.eqb (status r) STATUS_PENDING) (read_csv d)).
  assert (HF : forall r, In r F -> In r (read_csv d) /\ status r = STATUS_PENDING).
  { intros r Hr. apply filter_In in Hr as [Hin Hs]. split; [assumption|].
    now apply String.eqb_eq. }
  assert (HFnd : NoDup (map url (read_csv d)) -> NoDup (map url F))
    by apply NoDup_map_filter.
  assert (Hcut : forall m,
            (forall r, In r (firstn m F) -> In r F) /\
            (NoDup (map url F) -> NoDup (map url (firstn m F)))).
  { intros m. split.
    - intros r Hr. rewrite <- (firstn_skipn m F). apply in_or_app. now left.
    - intros Hnd. rewrite <- (firstn_skipn m F), map_app in Hnd.
      now apply NoDup_app_remove_r in Hnd. }
  destruct limit as [n|]; [|auto].
  destruct (slice_to_firstn F n) as [m ->].
  destruct (Hcut m) as [Hsub Hnd]. split; [intros r Hr; auto | auto].
Qed.

(** The batches of the loop, for a pending list [P]. *)
Lemma batches_of_pending (P : table) :
  let indices := range_step (List.length P) 100 in
  flat_map (batch_urls_at P) indices = map url P /\
  (forall i, In i indices ->
     batch_urls_at P i <> [] /\ (List.length (batch_urls_at P i) <= 100)%nat) /\
  (forall j, In (j * 100)%nat indices \/ batch_urls_at P (j * 100) = []).
Proof.
  cbv zeta. unfold range_step.
  destruct (range_step_bounds (List.length P)) as [Hn [Hlt _]].
  set (n := ((List.length P + 100 - 1) / 100)%nat) in *.
  split; [|split].
  - rewrite flat_map_concat_map, map_map. unfold batch_urls_at.
    rewrite <- (map_map (fun j => window P (j * 100) 100) (map url)).
    rewrite <- concat_map. f_equal. now apply windows_concat.
  - intros i Hi. apply in_map_iff in Hi as [j [<- Hj]]. apply in_seq in Hj.
    unfold batch_urls_at, window. rewrite length_map, length_firstn.
    split; [|lia].
    assert (Hlen : (List.length (firstn 100 (skipn (j * 100) P)) > 0)%nat).
    { rewrite length_firstn, length_skipn. specialize (Hlt j). lia. }
    destruct (firstn 100 (skipn (j * 100) P)); [simpl in Hlen; lia | discriminate].
  - intros j. destruct (Nat.ltb_spec j n) as [Hj|Hj].
    + left. apply in_map_iff. exists j. split; [reflexivity|]. apply in_seq. lia.
    + right. unfold batch_urls_at, window.
      rewrite skipn_all2 by lia. now rewrite firstn_nil.
Qed.

Section Fold.
Variable clock : nat -> string.
Variable services : nat -> service.
Variable max_retry : Z.
Variable request_delay : Z.
Variable urls0 : list string.
Variable P : table.
Hypothesis one_attempt : 1 <= max_retry.

Local Abbreviation run_batch :=
  (run_batch clock services max_retry request_delay P).

Local Abbreviation store_ok st :=
  (map url (read_csv (store st)) = urls0 /\
   retry_counts_readable (read_csv (store st))).

Local Abbreviation counted st st' n :=
  (processed st' - processed st = Z.of_nat n /\
   (success_count st' - success_count st) + (fail_count st' - fail_count st) =
     Z.of_nat n /\
   0 <= success_count st' - success_count st /\
   0 <= fail_count st' - fail_count st /\
   count_status STATUS_SUCCESS (read_csv (store st')) -
     count_status STATUS_SUCCESS (read_csv (store st)) =
     success_count st' - success_count st /\
   count_status STATUS_FAILED (read_csv (store st')) -
     count_status STATUS_FAILED (read_csv (store st)) =
     fail_count st' - fail_count st /\
   count_status STATUS_PENDING (read_csv (store st)) -
     count_status STATUS_PENDING (read_csv (store st')) = Z.of_nat n).

Lemma run_batch_spec st i :
  store_ok st ->
  NoDup (batch_urls_at P i) ->
  batch_urls_at P i <> [] -> (List.length (batch_urls_at P i) <= 100)%nat ->
  (forall u, In u (batch_urls_at P i) ->
     In u urls0 /\ get_url_status u (store st) = Some STATUS_PENDING) ->
  store_ok (run_batch st i) /\
  counted st (run_batch st i) (List.length (batch_urls_at P i)) /\
  (forall u, In u (batch_urls_at P i) ->
     get_url_status u (store (run_batch st i)) =
     Some (verdict_status (succeeds_within (services (i / 100)) max_retry u))) /\
  (forall u, ~ In u (batch_urls_at P i) ->
     get_url_status u (store (run_batch st i)) = get_url_status u (store st)).
Proof.
  intros Hok Hnd Hne Hlen Hpending.
  destruct (engine_results (services (i / 100)) max_retry request_delay
              (batch_urls_at P i) Hne Hlen one_attempt)
    as [tr [final (E & Hcnd & Hmem & Hverdict)]].
  destruct (play_spec clock urls0 tr st Hok Hcnd)
    as [st1 (Eplay & Hok1 & Hmoved & Hget & Hother)].
  { intros u Hu. apply Hpending. now apply Hmem. }
  assert (Hn : List.length (callback_results tr) = List.length (batch_urls_at P i)).
  { rewrite <- (length_map fst). apply same_members_length; assumption. }
  unfold Main.run_batch. fold (batch_urls_at P i). rewrite E, Eplay.
  cbn [fst store success_count fail_count processed].
  destruct Hmoved as (L1 & P1 & C1 & S1 & F1 & CS1 & CF1 & CP1).
  rewrite Hn in *.
  split; [assumption|]. split; [repeat split; assumption|]. split.
  - intros u Hu. apply Hmem in Hu. apply in_map_iff in Hu as [[u' b] [Hfst Hin]].
    cbn [fst] in Hfst. subst u'. rewrite (Hget u b Hin).
    now rewrite (Hverdict u b Hin).
  - intros u Hu. apply Hother. intros Hin. apply Hu. now apply Hmem.
Qed.

Lemma fold_run_batch_spec : forall indices st,
  store_ok st ->
  NoDup (flat_map (batch_urls_at P) indices) ->
  (forall i, In i indices ->
     batch_urls_at P i <> [] /\ (List.length (batch_urls_at P i) <= 100)%nat) ->
  (forall u, In u (flat_map (batch_urls_at P) indices) ->
     In u urls0 /\ get_url_status u (store st) = Some STATUS_PENDING) ->
  store_ok (fold_left run_batch indices st) /\
  counted st (fold_left run_batch indices st)
    (List.length (flat_map (batch_urls_at P) indices)) /\
  (forall i u, In i indices -> In u (batch_urls_at P i) ->
     get_url_status u (store (fold_left run_batch indices st)) =
     Some (verdict_status (succeeds_within (services (i / 100)) max_retry u))) /\
  (forall u, ~ In u (flat_map (batch_urls_at P) indices) ->
     get_url_status u (store (fold_left run_batch indices st)) =
     get_url_status u (store st)).
Proof.
  induction indices as [|i indices IH]; intros st Hok Hnd Hsize Hpending.
  - cbn [fold_left flat_map List.length]. destruct Hok.
    repeat split; try assumption; try lia. intros i u [].
  - cbn [fold_left flat_map] in *.
    assert (Hnd1 : NoDup (batch_urls_at P i)) by now apply NoDup_app_remove_r in Hnd.
    assert (Hnd2 : NoDup (flat_map (batch_urls_at P) indices))
      by now apply NoDup_app_remove_l in Hnd.
    destruct (Hsize i (or_introl eq_refl)) as [Hne Hlen].
    destruct (run_batch_spec st i Hok Hnd1 Hne Hlen)
      as (Hok1 & Hc1 & Hget1 & Hother1).
    { intros u Hu. apply Hpending. apply in_or_app. now left. }
    destruct (IH (run_batch st i) Hok1 Hnd2) as (Hok2 & Hc2 & Hget2 & Hother2).
    { intros i' Hi'. apply Hsize. now right. }
    { intros u Hu. destruct (Hpending u) as [Hin Hp]; [apply in_or_app; now right|].
      split; [assumption|]. rewrite Hother1; [assumption|].
      intros Hu1. exact (NoDup_app_disjoint _ _ u Hnd Hu1 Hu). }
    split; [assumption|]. split; [|split].
    + rewrite length_app.
      destruct Hc1 as (P1 & C1 & S1 & F1 & CS1 & CF1 & CP1).
      destruct Hc2 as (P2 & C2 & S2 & F2 & CS2 & CF2 & CP2).
      repeat split; lia.
    + intros i' u [<-|Hi'] Hu.
      * rewrite Hother2; [now apply Hget1|].
        exact (NoDup_app_disjoint _ _ u Hnd Hu).
      * now apply Hget2.
    + intros u Hu. rewrite Hother2, Hother1; [reflexivity | |];
        intros Hin; apply Hu; apply in_or_app; auto.
Qed.
End Fold.



End MainFacts.
